(** * Palantir core (src/palantir/core.py): a shallow embedding

    The pipeline of [core.py] works on pandas frames, SciPy sparse matrices
    and NumPy arrays of floats.  The embedding keeps the control flow and the
    index manipulation of the Python code and reads every float as an exact
    rational ([rat]): the statements below are about the algorithm, not
    about rounding.  Library routines whose results are not rational
    (Pearson correlation, Shannon entropy, Euclidean distance) are section
    variables of the definitions that call them.

    Cell labels are natural numbers; a pandas [Index] is a sequence of
    labels; a data frame is an index together with its columns. *)

From HB Require Import structures.
From mathcomp Require Import ssreflect ssrfun ssrbool eqtype ssrnat seq div.
From mathcomp Require Import choice path fintype tuple finfun bigop finset.
From mathcomp Require Import fingraph order ssralg ssrnum ssrint rat.
From mathcomp Require Import matrix mxalgebra.
From mathcomp Require Import ring_tactic field_tactic arithmetic_tactic.

Set Implicit Arguments.
Unset Strict Implicit.
Unset Printing Implicit Defensive.

Import Order.TTheory GRing.Theory Num.Theory.
Local Open Scope ring_scope.

(** ** Outcomes: a Python call returns a value or raises *)

Variant exn := IndexError | ValueError | ZeroDivisionError | LinAlgError.

Variant outcome (A : Type) := Ret of A | Raise of exn.
Arguments Ret {A} _.
Arguments Raise {A} _.

Definition bind {A B : Type} (m : outcome A) (k : A -> outcome B) : outcome B :=
  match m with
  | Ret a => k a
  | Raise e => Raise e
  end.

Notation "x <- m ;; k" := (bind m (fun x => k))
  (at level 100, m at next level, right associativity).

(** ** pandas.Index over cell labels *)

Definition label := nat.
Definition Index := seq label.

(** [Index.unique()]: the distinct labels, in order of first appearance. *)
Definition pd_unique (s : Index) : Index := rev (undup (rev s)).

(** [Index.union(other)]: the labels of either index, sorted. *)
Definition index_union (a b : Index) : Index :=
  sort leq (pd_unique (a ++ b)).

(** [Index.difference(other)]: the distinct labels of [a] that are not in
    [b], sorted. *)
Definition index_difference (a b : Index) : Index :=
  sort leq (pd_unique [seq x <- a | x \notin b]).

(** [Index.append(other)]. *)
Definition index_append (a b : Index) : Index := a ++ b.

(** ** Waypoint sequence of [run_palantir] and [identify_terminal_states]

    Lines 65-75 and 164-169.  [sampled] is what [_max_min_sampling]
    returned (or the index the caller passed as [num_waypoints]),
    [dm_boundaries] and [start_cell] are the locals computed just before. *)

Definition run_palantir_waypoints (sampled dm_boundaries : Index)
    (terminal_states : option Index) (start_cell : label) : Index :=
  let waypoints := index_union sampled dm_boundaries in
  let waypoints :=
    if terminal_states is Some ts then index_union waypoints ts
    else waypoints in
  let waypoints := pd_unique (index_difference waypoints [:: start_cell]) in
  index_append [:: start_cell] waypoints.

Definition identify_terminal_states_waypoints (sampled dm_boundaries : Index)
    (start_cell : label) : Index :=
  let waypoints := index_union sampled dm_boundaries in
  let waypoints := pd_unique (index_difference waypoints [:: start_cell]) in
  index_append [:: start_cell] waypoints.

(** ** Loops in the outcome monad *)

Fixpoint for_each {S A : Type} (xs : seq A) (s : S)
    (body : A -> S -> outcome S) : outcome S :=
  if xs is x :: xs' then s' <- body x s ;; for_each xs' s' body
  else Ret s.

(** ** WaypointSampler: [_max_min_sampling] (lines 187-229) *)

Record DataFrame := mkDataFrame {
  df_index : Index;              (* data.index, one label per row *)
  df_columns : seq (seq rat)     (* data[ind] for ind in data.columns *)
}.

(** [random.sample(range(N), 1)] with the generator's draw made explicit:
    a one-element list, or [ValueError] on an empty population. *)
Definition random_sample1 (N draw : nat) : outcome (seq nat) :=
  if N is 0 then Raise ValueError else Ret [:: draw %% N].

(** [dists[:, k] = col] on an array stored by columns: [IndexError] when
    the array has no column [k]. *)
Definition set_column (dists : seq (seq rat)) (k : nat) (col : seq rat) :
    outcome (seq (seq rat)) :=
  if (k < size dists)%N then Ret (set_nth [::] dists k col)
  else Raise IndexError.

(** [abs(vec - v)]. *)
Definition abs_diff (vec : seq rat) (v : rat) : seq rat :=
  [seq `|x - v| | x <- vec].

Definition mins (s : seq rat) : rat := foldr Order.min (head 0 s) (behead s).
Definition maxs (s : seq rat) : rat := foldr Order.max (head 0 s) (behead s).

(** [dists[:, 0:k].min(axis=1)] for an array of [N] rows. *)
Definition min_axis1 (N k : nat) (dists : seq (seq rat)) : seq rat :=
  [seq mins [seq nth 0 c i | c <- take k dists] | i <- iota 0 N].

(** The body of [for k in range(1, no_iterations)]; the state is
    [(iter_set, dists)]. *)
Definition maxmin_step (N : nat) (vec : seq rat) (k : nat)
    (st : seq nat * seq (seq rat)) : outcome (seq nat * seq (seq rat)) :=
  let min_dists := min_axis1 N k st.2 in
  let new_wp := index (maxs min_dists) min_dists in
  dists <- set_column st.2 k (abs_diff vec (nth 0 vec new_wp)) ;;
  Ret (rcons st.1 new_wp, dists).

(** The body of [for ind in data.columns] up to the update of the global
    set: the rows picked along one column [col], the random start first. *)
Definition sample_column (N no_iterations : nat) (col : seq rat)
    (draw : nat) : outcome (seq nat) :=
  let vec := [seq nth 0 col i | i <- iota 0 N] in
  iter_set <- random_sample1 N draw ;;
  let dists := nseq no_iterations (nseq N 0) in
  dists <- set_column dists 0 (abs_diff vec (nth 0 vec (head 0%N iter_set))) ;;
  st <- for_each (iota 1 (no_iterations - 1)) (iter_set, dists)
          (maxmin_step N vec) ;;
  Ret st.1.

(** [waypoint_set = waypoint_set + iter_set]; [rnd c] is the generator's
    draw for the column at position [c]. *)
Definition sample_columns_step (N no_iterations : nat) (rnd : nat -> nat)
    (c : nat * seq rat) (waypoint_set : seq nat) : outcome (seq nat) :=
  iter_set <- sample_column N no_iterations c.2 (rnd c.1) ;;
  Ret (waypoint_set ++ iter_set).

Definition _max_min_sampling (data : DataFrame) (num_waypoints : nat)
    (rnd : nat -> nat) : outcome Index :=
  let ncols := size (df_columns data) in
  if ncols == 0%N then Raise ZeroDivisionError else
  let no_iterations := (num_waypoints %/ ncols)%N in
  let N := size (df_index data) in
  waypoint_set <- for_each (zip (iota 0 ncols) (df_columns data)) [::]
                    (sample_columns_step N no_iterations rnd) ;;
  Ret (pd_unique [seq nth 0%N (df_index data) i | i <- waypoint_set]).

(** ** TrajectoryEstimator: the refinement loop of [_compute_trajectory]
    (lines 278-311) *)

(** [while cond: body], with fuel for the recursion: [None] is "out of
    fuel", not a Python outcome. *)
Fixpoint while {S : Type} (fuel : nat) (cond : S -> bool) (body : S -> S)
    (s : S) : option S :=
  if cond s then
    if fuel is fuel'.+1 then while fuel' cond body (body s) else None
  else Some s.

(** The correlation above which the loop stops: [0.9999].  The constant is
    locked so that no tactic normalises the fraction; [unlock] gives its
    value back. *)
Fact convergence_threshold_key : unit. Proof. by []. Qed.
Definition convergence_threshold : rat :=
  locked_with convergence_threshold_key (9999%:Q / 10000%:Q).
Canonical convergence_threshold_unlockable :=
  [unlockable of convergence_threshold].

Record refine_state := RefineState {
  trajectory : seq rat;     (* one value per cell, in the order of data.index *)
  converged : bool;
  iteration : nat
}.

Section TrajectoryEstimator.

(** [scipy.stats.pearsonr(x, y)[0]]. *)
Variable pearsonr : seq rat -> seq rat -> rat.

(** [data.index], the waypoint labels (distinct, the start cell first),
    and the frames [D] and [W] (one row per waypoint, one column per
    cell). *)
Variables (data_index waypoints : Index) (D W : seq (seq rat)).

(** [series[l]] and [frame.loc[l, :]]. *)
Definition series_loc (values : seq rat) (l : label) : rat :=
  nth 0 values (index l data_index).
Definition frame_loc (rows : seq (seq rat)) (l : label) : seq rat :=
  nth [::] rows (index l waypoints).

(** The body of [for wp in waypoints[1:]] on the perspective matrix [P]:
    the entries of the cells before [wp] are taken negated from [D], then
    the row is shifted by [idx_val]. *)
Definition align_waypoint (traj : seq rat) (P : seq (seq rat)) (wp : label) :
    seq (seq rat) :=
  let idx_val := series_loc traj wp in
  let row :=
    [seq (if nth 0 traj j < idx_val then - nth 0 (frame_loc D wp) j
          else nth 0 (frame_loc P wp) j) + idx_val
    | j <- iota 0 (size data_index)] in
  set_nth [::] P (index wp waypoints) row.

(** [P.multiply(W).sum()]: the column sums of the entrywise product. *)
Definition weighted_sum (P : seq (seq rat)) : seq rat :=
  [seq \sum_(r <- iota 0 (size waypoints))
         nth 0 (nth [::] P r) j * nth 0 (nth [::] W r) j
  | j <- iota 0 (size data_index)].

(** One pass: [new_traj] from the current trajectory. *)
Definition refine_pass (traj : seq rat) : seq rat :=
  weighted_sum (foldl (align_waypoint traj) D (behead waypoints)).

Definition refine_cond (max_iterations : nat) (st : refine_state) : bool :=
  ~~ converged st && (iteration st < max_iterations)%N.

Definition refine_body (st : refine_state) : refine_state :=
  let new_traj := refine_pass (trajectory st) in
  let corr := pearsonr (trajectory st) new_traj in
  RefineState new_traj
    (if corr > convergence_threshold then true else converged st)
    (iteration st).+1.

(** The loop of [_compute_trajectory], from [trajectory = D.loc[start_cell, :]]
    to the [return]. *)
Definition _compute_trajectory_loop (fuel : nat) (start_cell : label)
    (max_iterations : nat) : option refine_state :=
  while fuel (refine_cond max_iterations) refine_body
    (RefineState (frame_loc D start_cell) false 1).

End TrajectoryEstimator.

(** ** Sparse matrices

    A SciPy sparse matrix of shape [(m, n)] is the matrix of its entries,
    an absent entry being [0].  [scipy.sparse.find] lists the nonzero
    entries as three parallel arrays (row, column, value); they are kept
    here as one sequence of triplets, and an index array into the three
    arrays is the sequence of the triplets it selects. *)

Section SparseMatrix.

Variables m n : nat.

Definition triplet : Type := ('I_m * 'I_n * rat)%type.

(** [x, y, z = find(M)], row by row. *)
Definition sparse_find (M : 'M[rat]_(m, n)) : seq triplet :=
  [seq (ij, M ij.1 ij.2)
  | ij <- [seq (i, j) | i <- enum 'I_m, j <- enum 'I_n] & M ij.1 ij.2 != 0].

(** [csr_matrix((z, (x, y)), [m, n])]: entries at the same place add up. *)
Definition csr_matrix (entries : seq triplet) : 'M[rat]_(m, n) :=
  \matrix_(i, j) \sum_(e <- entries | (e.1.1 == i) && (e.1.2 == j)) e.2.

(** [_normalize_transition_matrix] (lines 339-345).  NumPy's division
    raises nothing; where a row total is [0] while a stored entry of the
    row is not (entries of both signs), NumPy yields an infinity and the
    model [0]: the statements below are about matrices without negative
    entries, where no such division takes place. *)
Definition _normalize_transition_matrix (M : 'M[rat]_(m, n)) :
    outcome 'M[rat]_(m, n) :=
  let D := fun i => \sum_j M i j in
  let xyz := sparse_find M in
  Ret (csr_matrix [seq (e.1, e.2 / D e.1.1) | e <- xyz]).

End SparseMatrix.

(** ** Comparisons of doubles

    The weights are doubles.  The model computes with the exact values,
    which the doubles match up to rounding; so a test the code makes on
    two doubles it has computed is the test on the exact values where
    these differ, but where they tie rounding decides ([1/2 + 1/2] is [1]
    on doubles, [8/35 + 9/35 + 18/35] is [0.9999999999999999]).  The tests
    of lines 379 and 384 are therefore parameters of the model. *)
Record float_cmp := FloatCmp {
  float_eq : rat -> rat -> bool;
  float_ge : rat -> rat -> bool
}.

(** The tests as the exact values decide them. *)
Definition exact_cmp : float_cmp := FloatCmp eq_op (fun a b => b <= a).

(** Ties that rounding has broken: no two computed values test equal. *)
Definition unequal_cmp : float_cmp :=
  FloatCmp (fun _ _ => false) (fun a b => b <= a).

(** Away from ties the tests are those of the exact values. *)
Definition cmp_sound (c : float_cmp) : Prop :=
  [/\ forall a b, float_eq c a b -> a = b,
      forall a b, float_ge c a b -> b <= a
    & forall a b, b < a -> float_ge c a b].

(** ** DirectedMarkovChainBuilder: [_construct_phenotypic_markov_chain]
    from line 364 on *)

Section DirectedMarkovChain.

Variable n : nat.

(** [np.cumsum(w)[i]]. *)
Definition cumsum (w : seq rat) (i : nat) : rat := \sum_(x <- take i.+1 w) x.

(** [test_edges[np.argsort(w[test_edges])]]: ascending weights (NumPy
    does not say in which order equal weights come; here they keep their
    order). *)
Definition sort_by_weight (test_edges : seq (triplet n n)) :
    seq (triplet n n) :=
  sort (fun a b => a.2 <= b.2) test_edges.

(** Lines 377-388 for the sorted [test_edges] of one source node: the
    value of [retain_edges], or nothing where the code [continue]s.  [c]
    decides [back_prob == 1] and [np.cumsum(...) >= diff]. *)
Definition retain_back_edges (c : float_cmp) (test_edges : seq (triplet n n)) :
    seq (triplet n n) :=
  let w := [seq e.2 | e <- test_edges] in
  let back_prob := \sum_(x <- w) x in
  if float_eq c back_prob 1 then test_edges
  else
    let diff := back_prob - (1 - back_prob) in
    let retain_inds :=
      [seq i <- iota 0 (size w) | float_ge c (cumsum w i) diff] in
    if (size retain_inds <= 1)%N then [::]
    else drop (nth 0%N retain_inds 1) test_edges.

(** The tests as they come out for each source node. *)
Variable fp : 'I_n -> float_cmp.

(** The body of [for wp in set(x[back_edges])]. *)
Definition prune_step (back_edges retained_edges : seq (triplet n n))
    (wp : 'I_n) : seq (triplet n n) :=
  let test_edges := [seq e <- back_edges | e.1.1 == wp] in
  let test_edges := sort_by_weight test_edges in
  retained_edges ++ retain_back_edges (fp wp) test_edges.

(** [T] is the transition matrix of line 361, [trajectory] the array of
    line 356.  The set of line 370 is visited in order of first
    appearance (Python fixes no order; the matrix built at line 393 does
    not depend on it). *)
Definition _construct_phenotypic_markov_chain (T : 'M[rat]_n)
    (trajectory : 'I_n -> rat) : outcome 'M[rat]_n :=
  let xyw := sparse_find T in
  let fwd_edges := [seq e <- xyw | trajectory e.1.1 <= trajectory e.1.2] in
  let retained_edges := fwd_edges in
  let back_edges := [seq e <- xyw | trajectory e.1.1 > trajectory e.1.2] in
  let retained_edges :=
    foldl (prune_step back_edges) retained_edges
      (rev (undup (rev [seq e.1.1 | e <- back_edges]))) in
  _normalize_transition_matrix (csr_matrix retained_edges).

(** The pruning rule in the words of the specification (section 4.5):
    drop the smallest prefix whose cumulative sum reaches [diff], "but
    retain nothing if fewer than 2 edges survive the prefix cut". *)
Definition spec_retain_back_edges (test_edges : seq (triplet n n)) :
    seq (triplet n n) :=
  let w := [seq e.2 | e <- test_edges] in
  let back_prob := \sum_(x <- w) x in
  if back_prob == 1 then test_edges
  else
    let diff := back_prob - (1 - back_prob) in
    let prefix := (seq.find (fun i => diff <= cumsum w i) (iota 0 (size w))).+1 in
    let survivors := drop prefix test_edges in
    if (size survivors < 2)%N then [::] else survivors.

End DirectedMarkovChain.

(** ** AbsorptionSolver: [_compute_absorption_probabilities]
    (lines 483-510) *)

Section AbsorptionSolver.

Variable n : nat.
Implicit Types (T : 'M[rat]_n) (abs_states : seq 'I_n).

(** [T[abs_states, :] = 0]. *)
Definition assign_rows_zero T abs_states : 'M[rat]_n :=
  \matrix_(i, j) if i \in abs_states then 0 else T i j.

(** [T[abs_states, abs_states] = 1]: the places [(s, s)], [s] in
    [abs_states]. *)
Definition assign_diagonal_one T abs_states : 'M[rat]_n :=
  \matrix_(i, j) if (i \in abs_states) && (i == j) then 1 else T i j.

(** [list(s)] for a set [s] of integers lists the members in the order
    of the hash table, which need not be the ascending one
    ([list(set(range(18)).difference(...))] can be [[17, 4]]).
    [set_to_list] is that order, as a function of the members in
    ascending order. *)
Variable set_to_list : seq 'I_n -> seq 'I_n.

(** [list(set(range(N)).difference(abs_states))]. *)
Definition trans_states abs_states : seq 'I_n :=
  set_to_list [seq i <- enum 'I_n | i \notin abs_states].

(** [T[rows, :][:, cols]]. *)
Definition submatrix T (rows cols : seq 'I_n) :
    'M[rat]_(size rows, size cols) :=
  \matrix_(i, j) T (tnth (in_tuple rows) i) (tnth (in_tuple cols) j).

(** [numpy.linalg.inv] raises [LinAlgError] only where the elimination
    meets a pivot that is exactly zero.  On doubles a singular matrix
    mostly leaves a tiny pivot instead, and some matrix is returned.
    [inv_singular] is what [inv] does with a singular matrix. *)
Variable inv_singular : forall m : nat, 'M[rat]_m -> outcome 'M[rat]_m.

(** [numpy.linalg.inv]. *)
Definition linalg_inv (m : nat) (A : 'M[rat]_m) : outcome 'M[rat]_m :=
  if A \in unitmx then Ret (invmx A) else inv_singular A.

(** [probs[probs < 0] = 0]. *)
Definition clamp_negative (m a : nat) (probs : 'M[rat]_(m, a)) :
    'M[rat]_(m, a) :=
  map_mx (fun x => if x < 0 then 0 else x) probs.

(** The two assignments of lines 488 and 490 write into the matrix object
    the caller passed; line 491 rebinds the local name only.  The model
    returns the caller's matrix as the call leaves it, next to the
    outcome of the call. *)
Definition _compute_absorption_probabilities T abs_states :
    'M[rat]_n *
    outcome 'M[rat]_(size (trans_states abs_states), size abs_states) :=
  let T := assign_rows_zero T abs_states in
  let T := assign_diagonal_one T abs_states in
  let T_caller := T in
  (T_caller,
   T <- _normalize_transition_matrix T ;;
   let trans_states := trans_states abs_states in
   let Q := submatrix T trans_states trans_states in
   let mat := 1%:M - Q in
   N <- linalg_inv mat ;;
   let probs := N *m submatrix T trans_states abs_states in
   Ret (clamp_negative probs)).

(** [fate_prediction], lines 113-121: the affinity matrix [W] is
    normalised, the result is passed to the solver, and [T.shape[0]] is
    read from it afterwards.  The value is the matrix [T] of the caller
    after line 118. *)
Definition fate_prediction_transition_matrix (W : 'M[rat]_n) abs_states :
    outcome 'M[rat]_n :=
  T <- _normalize_transition_matrix W ;;
  let: (T, probs) := _compute_absorption_probabilities T abs_states in
  Ret T.

End AbsorptionSolver.

(** ** Branch probabilities and entropy: [_differentiation_entropy] from
    line 531 on *)

(** A data frame with row and column labels, stored by rows. *)
Record Frame := mkFrame {
  frame_index : Index;
  frame_columns : Index;
  frame_values : seq (seq rat)
}.

Section DifferentiationEntropy.

(** [scipy.stats.entropy] of one row. *)
Variable entropy : seq rat -> rat.

Variable n : nat.

(** The order of [list(set(...))] and [inv] on a singular matrix, as in
    [_compute_absorption_probabilities]. *)
Variable set_to_list : seq 'I_n -> seq 'I_n.
Variable inv_singular : forall m : nat, 'M[rat]_m -> outcome 'M[rat]_m.

(** The body of [for s in abs_states]: [T[nb, s] = 0.5] for the columns
    [nb] where row [s] is positive. *)
Definition make_sink (T : 'M[rat]_n) (s : 'I_n) : 'M[rat]_n :=
  let nb := [seq j <- enum 'I_n | 0 < T s j] in
  \matrix_(i, j) if (i \in nb) && (j == s) then 1 / 2%:Q else T i j.

(** The rows of a matrix as lists. *)
Definition rows_of (m a : nat) (A : 'M[rat]_(m, a)) : seq (seq rat) :=
  [seq [seq A i j | j <- enum 'I_a] | i <- enum 'I_m].

(** [waypoints] is [wp_data.index], [terminal_states] the terminal states
    (given by the caller or found at line 528), [T] the matrix of line
    524.  The value is the pair [(ent, branch_probs)]: [ent] as a list of
    (label, entropy) pairs. *)
Definition _differentiation_entropy (waypoints : n.-tuple label)
    (terminal_states : Index) (T : 'M[rat]_n) :
    outcome (seq (label * rat) * Frame) :=
  let abs_states :=
    [seq i <- enum 'I_n | tnth waypoints i \in terminal_states] in
  let T := foldl make_sink T abs_states in
  let: (T, res) :=
    _compute_absorption_probabilities set_to_list inv_singular T abs_states in
  branch_probs <- res ;;
  let trans_states := trans_states set_to_list abs_states in
  let index := [seq tnth waypoints i | i <- trans_states] in
  let columns := [seq tnth waypoints i | i <- abs_states] in
  let values := rows_of branch_probs in
  let ent := [seq (lr.1, entropy lr.2) | lr <- zip index values] in
  let ent := ent ++ [seq (t, 0) | t <- terminal_states] in
  let bp :=
    [seq [seq (if seq.index c terminal_states == k then 1 else 0)
         | c <- columns]
    | k <- iota 0 (size terminal_states)] in
  Ret (ent, mkFrame (index ++ terminal_states) columns (values ++ bp)).

End DifferentiationEntropy.

(** ** GraphBuilder: [_connect_graph] (lines 568-605) *)

Section GraphBuilder.

Variable n : nat.

(** The sparse adjacency matrix of the kNN graph: [None] where no entry
    is stored.  For [scipy.sparse.csgraph] every stored entry is an edge,
    a stored [0] included. *)
Definition adjacency : Type := 'M[option rat]_n.

(** [pairwise_distances] between two rows of the embedding. *)
Variable edist : 'I_n -> 'I_n -> rat.

(** The smaller of two distances, [None] being infinity. *)
Definition omin (a b : option rat) : option rat :=
  match a, b with
  | Some x, Some y => Some (Order.min x y)
  | Some x, None => Some x
  | None, _ => b
  end.

(** With [directed=False] an edge can be walked along [adj[u, v]] or
    [adj[v, u]]. *)
Definition undirected_weight (adj : adjacency) (u v : 'I_n) : option rat :=
  omin (adj u v) (adj v u).

(** One round of relaxation of the distances [d]. *)
Definition relax (adj : adjacency) (d : 'I_n -> option rat) :
    'I_n -> option rat :=
  fun v =>
    foldr omin (d v)
      [seq (if undirected_weight adj u v is Some w
            then omap (+%R^~ w) (d u) else None)
      | u <- enum 'I_n].

(** [csgraph.dijkstra(adj, False, start)]: the shortest-path distances
    from [start], [None] for an unreachable node; computed by [n] rounds
    of relaxation. *)
Definition dijkstra (adj : adjacency) (start : 'I_n) : 'I_n -> option rat :=
  iter n (relax adj) (fun v => if v == start then Some 0 else None).

(** [Series.idxmax()] and [Series.idxmin()] of the series with index [s]
    and values [f]: the first label of the largest (smallest) value,
    [ValueError] on an empty series. *)
Definition idxmax (s : seq 'I_n) (f : 'I_n -> rat) : outcome 'I_n :=
  if s is x :: s' then
    Ret (foldl (fun best y => if f best < f y then y else best) x s')
  else Raise ValueError.

Definition idxmin (s : seq 'I_n) (f : 'I_n -> rat) : outcome 'I_n :=
  if s is x :: s' then
    Ret (foldl (fun best y => if f y < f best then y else best) x s')
  else Raise ValueError.

(** [adj[u, v] = w]. *)
Definition set_entry (adj : adjacency) (u v : 'I_n) (w : rat) : adjacency :=
  \matrix_(i, j) if (i == u) && (j == v) then Some w else adj i j.

(** The loop of [_connect_graph]; the distances and the unreachable nodes
    of lines 598-603 are those computed at the head of the next round.
    Cells are identified with their positions, so that
    [data.index.difference] lists the unreachable nodes in ascending
    order.  [None] is "out of fuel". *)
Fixpoint connect_loop (fuel : nat) (start_cell : 'I_n) (adj : adjacency) :
    option (outcome adjacency) :=
  let dists := dijkstra adj start_cell in
  let reacheable := [seq i <- enum 'I_n | dists i != None] in
  let unreachable_nodes := [seq i <- enum 'I_n | dists i == None] in
  if (0 < size unreachable_nodes)%N then
    if fuel is fuel'.+1 then
      match idxmax reacheable (fun i => odflt 0 (dists i)) with
      | Raise e => Some (Raise e)
      | Ret farthest_reachable =>
          match idxmin unreachable_nodes (edist farthest_reachable) with
          | Raise e => Some (Raise e)
          | Ret add_edge =>
              connect_loop fuel' start_cell
                (set_entry adj farthest_reachable add_edge
                   (edist farthest_reachable add_edge))
          end
      end
    else None
  else Some (Ret adj).

Definition _connect_graph (fuel : nat) (adj : adjacency)
    (start_cell : 'I_n) : option (outcome adjacency) :=
  connect_loop fuel start_cell adj.

End GraphBuilder.

(** ** Quantities used to state further properties *)

(** The distance, along the column [col], from row [i] to the nearest of
    the first [k] rows of [picks]. *)
Definition nearest_picked (col : seq rat) (picks : seq nat) (k i : nat) :
    rat :=
  mins [seq `|nth 0 col i - nth 0 col (nth 0%N picks j)| | j <- iota 0 k].

(** ** Projection to all cells: [run_palantir], lines 91-92 *)

(** [frame.loc[labels, :]]: for every requested label, in the order of
    [labels], the rows of the frame that carry it.  [None] when a label is
    not a row label of the frame ([KeyError]). *)
Definition frame_loc_rows (frame : Frame) (labels : Index) :
    option (seq (seq rat)) :=
  if all (fun l => l \in frame_index frame) labels then
    Some (flatten
      [seq [seq lr.2
           | lr <- zip (frame_index frame) (frame_values frame) & lr.1 == l]
      | l <- labels])
  else None.

(** [np.dot(W.T, B)] for [W] with one row per waypoint and [ncells]
    columns and [B] with [ncols] columns.  [None] when the two do not have
    the same number of rows ([ValueError], shapes not aligned). *)
Definition dot_transpose (ncells ncols : nat) (W B : seq (seq rat)) :
    option (seq (seq rat)) :=
  if size W == size B then
    Some [seq [seq \sum_(r <- iota 0 (size W))
                    nth 0 (nth [::] W r) j * nth 0 (nth [::] B r) c
              | c <- iota 0 ncols]
         | j <- iota 0 ncells]
  else None.

(** Lines 91-92: [W] is the weight frame returned by
    [_compute_trajectory], with row labels [waypoints] and column labels
    [data_index]. *)
Definition project_to_cells (data_index waypoints : Index)
    (W : seq (seq rat)) (branch_probs : Frame) : option Frame :=
  if frame_loc_rows branch_probs waypoints is Some B then
    if dot_transpose (size data_index) (size (frame_columns branch_probs))
         W B is Some values
    then Some (mkFrame data_index (frame_columns branch_probs) values)
    else None
  else None.

(** ** Small concrete inputs, used by the examples at the end *)

(** The matrix whose rows are the given lists. *)
Definition matrix_of_rows (n : nat) (rows : seq (seq rat)) : 'M[rat]_n :=
  \matrix_(i, j) nth 0 (nth [::] rows i) j.

(** [n] rows of length [n], without negative entries, each of sum [1];
    the sum is a plain fold so that the check computes. *)
Definition stochastic_rows (n : nat) (rows : seq (seq rat)) : bool :=
  (size rows == n) &&
  all (fun r => [&& size r == n, foldr +%R 0 r == 1 & all (fun x => 0 <= x) r])
      rows.

(** Four rows in two columns. *)
Definition toy_frame : DataFrame :=
  mkDataFrame [:: 10; 11; 12; 13]%N
    [:: [:: 0; 1%:Q / 2%:Q; 1; 1%:Q / 4%:Q]; [:: 1; 0; 1%:Q / 3%:Q; 1]].

(** The weights of the examples are dyadic, so that the doubles are the
    exact values and no test is at a tie, except where a tie is the
    point. *)

(** Three backward edges of a node 3, of weights 1/16, 1/4 and 5/16:
    [B = 5/8] and [diff = 1/4]. *)
Definition toy_test_edges : seq (triplet 4 4) :=
  [:: (ord_max, ord0, 1%:Q / 16%:Q);
      (ord_max, Ordinal (isT : (1 < 4)%N), 1%:Q / 4%:Q);
      (ord_max, Ordinal (isT : (2 < 4)%N), 5%:Q / 16%:Q)].

(** The backward edges of node 2 of [toy_chain], of weights 1/8 and 1/4:
    [B = 3/8] and [diff = -1/4]. *)
Definition toy_light_edges : seq (triplet 3 3) :=
  [:: (ord_max, ord0, 1%:Q / 8%:Q);
      (ord_max, Ordinal (isT : (1 < 3)%N), 1%:Q / 4%:Q)].

(** Three waypoints with trajectory values 0, 1, 2.  Node 2 has two
    backward edges and a self loop. *)
Definition toy_chain : 'M[rat]_3 :=
  matrix_of_rows 3
    [:: [:: 0; 1%:Q / 2%:Q; 1%:Q / 2%:Q];
        [:: 1%:Q / 4%:Q; 0; 3%:Q / 4%:Q];
        [:: 1%:Q / 8%:Q; 1%:Q / 4%:Q; 5%:Q / 8%:Q]].

Definition toy_trajectory : 'I_3 -> rat := fun i => (i : nat)%:Q.

(** Four waypoints with trajectory values 0, 1, 2, 3.  The last one has
    backward edges only, as the waypoint of largest trajectory value has
    in a graph without self loops; its weights are those line 361 gives
    for the affinities 8, 9 and 18.  Their exact sum is 1; as doubles they
    add up to 0.9999999999999999. *)
Definition toy_last_chain : 'M[rat]_4 :=
  matrix_of_rows 4
    [:: [:: 0; 1%:Q / 2%:Q; 1%:Q / 2%:Q; 0];
        [:: 0; 0; 1%:Q / 2%:Q; 1%:Q / 2%:Q];
        [:: 0; 0; 0; 1];
        [:: 8%:Q / 35%:Q; 9%:Q / 35%:Q; 18%:Q / 35%:Q; 0]].

Definition toy_last_trajectory : 'I_4 -> rat := fun i => (i : nat)%:Q.

(** Four waypoints, the last two terminal.  The transient waypoints 0
    and 1 step to each other, and each to one terminal waypoint. *)
Definition toy_fate_waypoints : 4.-tuple label :=
  [tuple 10%N; 11%N; 12%N; 13%N].
Definition toy_fate_chain : 'M[rat]_4 :=
  matrix_of_rows 4
    [:: [:: 0; 1%:Q / 2%:Q; 1%:Q / 2%:Q; 0];
        [:: 1%:Q / 2%:Q; 0; 0; 1%:Q / 2%:Q];
        [:: 0; 1%:Q / 2%:Q; 0; 1%:Q / 2%:Q];
        [:: 1%:Q / 2%:Q; 1%:Q / 2%:Q; 0; 0]].

(** Two waypoints; each steps to the other. *)
Definition toy_waypoints : 2.-tuple label := [tuple 10%N; 11%N].
Definition toy_swap : 'M[rat]_2 := matrix_of_rows 2 [:: [:: 0; 1]; [:: 1; 0]].

(** A 2 x 2 affinity matrix whose first row is empty. *)
Definition zero_row_matrix : 'M[rat]_2 :=
  matrix_of_rows 2 [:: [:: 0; 0]; [:: 1; 1]].

(** Two waypoints and three cells: the weights of every cell sum to 1;
    branch probabilities of the two waypoints for one terminal state. *)
Definition toy_cells : Index := [:: 10; 11; 12]%N.
Definition toy_weights : seq (seq rat) :=
  [:: [:: 1; 0; 1%:Q / 2%:Q]; [:: 0; 1; 1%:Q / 2%:Q]].
Definition toy_branch_probs : Frame :=
  mkFrame [:: 10; 11]%N [:: 11%N] [:: [:: 1]; [:: 1]].

(** * Proofs *)

(** ** Outcomes *)

Lemma bind_Ret (A B : Type) (a : A) (k : A -> outcome B) :
  bind (Ret a) k = k a.
Proof. by []. Qed.

(** ** pandas.Index *)

Lemma mem_pd_unique (s : Index) : pd_unique s =i s.
Proof. by move=> x; rewrite /pd_unique mem_rev mem_undup mem_rev. Qed.

Lemma pd_unique_uniq (s : Index) : uniq (pd_unique s).
Proof. by rewrite /pd_unique rev_uniq undup_uniq. Qed.

Lemma size_pd_unique (s : Index) : (size (pd_unique s) <= size s)%N.
Proof. by rewrite /pd_unique size_rev -(size_rev s) size_undup. Qed.

Lemma mem_index_union (a b : Index) x :
  (x \in index_union a b) = (x \in a) || (x \in b).
Proof. by rewrite /index_union mem_sort mem_pd_unique mem_cat. Qed.

Lemma mem_index_difference (a b : Index) x :
  (x \in index_difference a b) = (x \in a) && (x \notin b).
Proof.
by rewrite /index_difference mem_sort mem_pd_unique mem_filter andbC.
Qed.

Lemma index_difference_uniq (a b : Index) : uniq (index_difference a b).
Proof. by rewrite /index_difference sort_uniq pd_unique_uniq. Qed.

(** ** The start cell in the waypoint sequence *)

Lemma start_first_once (start_cell : label) (rest : Index) :
  start_cell \notin rest ->
  let w := index_append [:: start_cell] rest in
  ohead w = Some start_cell /\ count_mem start_cell w = 1%N.
Proof.
move=> nin /=; split=> //.
by rewrite eqxx (count_memPn nin).
Qed.

Lemma start_notin_rest (w : Index) (start_cell : label) :
  start_cell \notin pd_unique (index_difference w [:: start_cell]).
Proof. by rewrite mem_pd_unique mem_index_difference inE eqxx andbF. Qed.

(** C6. In [run_palantir] and in [identify_terminal_states] the waypoint
    sequence passed on to [_compute_trajectory] starts with the start cell
    and holds it exactly once, whatever was sampled, whatever the boundary
    cells are and whatever terminal states the caller gave (the start cell
    may be in any of them). *)
Theorem start_cell_first_exactly_once
    (sampled dm_boundaries : Index) (terminal_states : option Index)
    (start_cell : label) :
  let w1 := run_palantir_waypoints sampled dm_boundaries terminal_states
              start_cell in
  let w2 := identify_terminal_states_waypoints sampled dm_boundaries
              start_cell in
  [/\ ohead w1 = Some start_cell, count_mem start_cell w1 = 1%N,
      ohead w2 = Some start_cell & count_mem start_cell w2 = 1%N].
Proof.
rewrite /run_palantir_waypoints /identify_terminal_states_waypoints.
set r1 := pd_unique _; set r2 := pd_unique _.
have [h1 h2] := start_first_once (start_notin_rest _ start_cell : _ \notin r1).
have [h3 h4] := start_first_once (start_notin_rest _ start_cell : _ \notin r2).
by split.
Qed.

(** ** WaypointSampler *)

Lemma maxs_mem (s : seq rat) : s != [::] -> maxs s \in s.
Proof.
case: s => // x s _; rewrite /maxs /=.
elim: s => [|y s IH] /=; first by rewrite mem_seq1.
case: leP => _; last by rewrite !inE eqxx orbT.
by move: IH; rewrite !inE => /orP[->|->]; rewrite ?orbT.
Qed.

Lemma maxmin_loop_ok (N : nat) (vec : seq rat) (m k0 : nat)
    (iter_set : seq nat) (dists : seq (seq rat)) :
  (0 < N)%N -> (k0 + m <= size dists)%N ->
  all (fun i => i < N)%N iter_set ->
  exists st,
    [/\ for_each (iota k0 m) (iter_set, dists) (maxmin_step N vec) = Ret st,
        size st.1 = (size iter_set + m)%N,
        all (fun i => i < N)%N st.1 & size st.2 = size dists].
Proof.
move=> Npos.
elim: m k0 iter_set dists => [|m IH] k0 iter_set dists Hk Hall /=.
  by exists (iter_set, dists); rewrite addn0.
have Hk0 : (k0 < size dists)%N.
  by apply: leq_trans Hk; rewrite addnS ltnS leq_addr.
rewrite /maxmin_step /set_column /= Hk0 /=.
set new_wp := index _ _; set dists' := set_nth _ _ _ _.
have Hnew : (new_wp < N)%N.
  rewrite /new_wp -[X in (_ < X)%N](size_iota 0 N).
  rewrite -(size_map (fun i => mins [seq nth 0 c i | c <- take k0 dists])).
  rewrite index_mem; apply: maxs_mem.
  by rewrite -size_eq0 size_map size_iota -lt0n.
have Hsz : size dists' = size dists.
  by rewrite /dists' size_set_nth; apply/maxn_idPr.
have [|//|st [E1 E2 E3 E4]] := IH k0.+1 (rcons iter_set new_wp) dists'.
- by rewrite Hsz addSn -addnS.
- by rewrite all_rcons Hnew.
exists st; split=> //; first by rewrite E2 size_rcons addSn addnS.
by rewrite E4.
Qed.

Lemma sample_column_ok (N K : nat) (col : seq rat) (draw : nat) :
  (0 < N)%N -> (0 < K)%N ->
  exists s, [/\ sample_column N K col draw = Ret s, size s = K
                & all (fun i => i < N)%N s].
Proof.
move=> Npos Kpos; rewrite /sample_column.
have -> : random_sample1 N draw = Ret [:: (draw %% N)%N] by case: N Npos.
rewrite bind_Ret /set_column size_nseq Kpos bind_Ret.
set vec := map _ _; set dists := set_nth _ _ _ _.
have [| |st [-> E2 E3 _]] :=
  @maxmin_loop_ok N vec (K - 1) 1 [:: (draw %% N)%N] dists Npos.
- rewrite /dists size_set_nth size_nseq add1n subn1 prednK //.
  by rewrite leq_max leqnn orbT.
- by rewrite /= ltn_mod Npos.
by exists st.1; split=> //; rewrite E2 /= add1n subn1 prednK.
Qed.

Lemma sample_columns_ok (N K : nat) (rnd : nat -> nat)
    (cols : seq (seq rat)) (i0 : nat) (acc : seq nat) :
  (0 < N)%N -> (0 < K)%N -> all (fun i => i < N)%N acc ->
  exists w,
    [/\ for_each (zip (iota i0 (size cols)) cols) acc
          (sample_columns_step N K rnd) = Ret w,
        size w = (size acc + size cols * K)%N
        & all (fun i => i < N)%N w].
Proof.
move=> Npos Kpos.
elim: cols i0 acc => [|c cols IH] i0 acc Hacc /=.
  by exists acc; rewrite mul0n addn0.
rewrite {1}/sample_columns_step /=.
have [s [-> E2 E3]] := sample_column_ok c (rnd i0) Npos Kpos.
rewrite !bind_Ret.
have [|w [-> F2 F3]] := IH i0.+1 (acc ++ s); first by rewrite all_cat Hacc.
by exists w; split=> //; rewrite F2 size_cat E2 mulSn addnA.
Qed.

(** C8. On a data matrix with at least one row and one column, and for
    [num_waypoints] at least the number of columns, [_max_min_sampling]
    returns; what it returns are distinct labels, at most [num_waypoints]
    of them, each a row label of the input. *)
Theorem max_min_sampling_at_most_num_waypoints
    (data : DataFrame) (num_waypoints : nat) (rnd : nat -> nat) :
  (0 < size (df_index data))%N ->
  (0 < size (df_columns data) <= num_waypoints)%N ->
  exists waypoints,
    [/\ _max_min_sampling data num_waypoints rnd = Ret waypoints,
        uniq waypoints,
        (size waypoints <= num_waypoints)%N
        & {subset waypoints <= df_index data}].
Proof.
move=> Npos /andP[Cpos Cle]; rewrite /_max_min_sampling.
rewrite eqn0Ngt Cpos -[~~ true]/(false).
have Kpos : (0 < num_waypoints %/ size (df_columns data))%N by rewrite divn_gt0.
have [//|w [-> E2 E3]] :=
  @sample_columns_ok _ _ rnd (df_columns data) 0 [::] Npos Kpos.
eexists; split; first by [].
- exact: pd_unique_uniq.
- apply: leq_trans (size_pd_unique _) _.
  by rewrite size_map E2 add0n mulnC leq_trunc_div.
move=> x; rewrite mem_pd_unique => /mapP[i Hi ->].
by apply: mem_nth; exact: (allP E3).
Qed.

(** C10. When [num_waypoints] is smaller than the number of columns,
    [no_iterations] is [0] and the call fails on the first column: the
    assignment [dists[:, 0] = ...] raises [IndexError] ([random.sample]
    raises [ValueError] before that when the matrix has no row).  No
    waypoint set, empty or partial, is returned. *)
Theorem max_min_sampling_fails_below_columns
    (data : DataFrame) (num_waypoints : nat) (rnd : nat -> nat) :
  (num_waypoints < size (df_columns data))%N ->
  _max_min_sampling data num_waypoints rnd =
    Raise (if size (df_index data) is 0%N then ValueError else IndexError).
Proof.
rewrite /_max_min_sampling => Hlt; rewrite (divn_small Hlt).
case: (df_columns data) Hlt => // c cols _ /=.
by rewrite /sample_columns_step /sample_column; case: (size _).
Qed.

(** ** TrajectoryEstimator *)

Lemma while_invariant (S : Type) (cond : S -> bool) (body : S -> S)
    (I : S -> Prop) (measure : S -> nat) :
  (forall s, I s -> cond s ->
     I (body s) /\ (measure (body s) < measure s)%N) ->
  forall fuel s, I s -> (measure s <= fuel)%N ->
  exists s', [/\ while fuel cond body s = Some s', I s' & ~~ cond s'].
Proof.
move=> step; elim=> [|fuel IH] s Is Hm /=.
  case Hc: (cond s); last by exists s; rewrite Hc.
  by have [_] := step s Is Hc; rewrite ltnNge (leq_trans Hm).
case Hc: (cond s); last by exists s; rewrite Hc.
have [Ib Hlt] := step s Is Hc.
by apply: IH => //; rewrite -ltnS (leq_trans Hlt).
Qed.

Section TrajectoryEstimatorProofs.

Variable pearsonr : seq rat -> seq rat -> rat.
Variables (data_index waypoints : Index) (D W : seq (seq rat)).
Variables (start_cell : label) (max_iterations : nat).

(** The estimate after [p] passes and the correlation measured by pass
    number [p.+1]. *)
Let estimate (p : nat) : seq rat :=
  iter p (refine_pass data_index waypoints D W) (frame_loc waypoints D start_cell).
Let corr (p : nat) : rat := pearsonr (estimate p) (estimate p.+1).

Let loop_inv (st : refine_state) : Prop :=
  exists p, [/\ iteration st = p.+1, trajectory st = estimate p,
                (p <= max_iterations.-1)%N,
                forall j, (j.+1 < p)%N -> corr j <= convergence_threshold
              & converged st = (0 < p)%N && (convergence_threshold < corr p.-1)].

Lemma refine_body_inv (st : refine_state) :
  loop_inv st -> refine_cond max_iterations st ->
  loop_inv (refine_body pearsonr data_index waypoints D W st) /\
  (max_iterations - iteration (refine_body pearsonr data_index waypoints D W st)
   < max_iterations - iteration st)%N.
Proof.
case=> p [Hit Htr Hp Hbefore Hconv] /andP[Hnc Hlt].
split; last by rewrite /= subnS prednK // subn_gt0.
exists p.+1; split=> //=.
- by rewrite Hit.
- by rewrite Htr.
- by rewrite -ltnS prednK -?Hit // (leq_ltn_trans _ Hlt).
- move=> j; rewrite ltnS => Hj.
  case: (ltngtP j.+1 p) Hj => // [Hj _|Hj _]; first exact: Hbefore.
  move: Hnc; rewrite Hconv -Hj /= -leNgt; exact.
by rewrite Htr -/(estimate p.+1) -/(corr p) (negbTE Hnc); case: ifP.
Qed.

(** C5. With fuel [max_iterations] the loop of [_compute_trajectory]
    returns (it raises nothing), after [p] passes where [p] is at most
    [max_iterations] (indeed at most [max_iterations - 1], the counter
    starting at 1).  No pass before the last measured a correlation above
    0.9999; the loop stopped with [converged] exactly when the last pass
    did; and when it did not converge, [p] is [max_iterations - 1] and the
    trajectory returned is the last estimate. *)
Theorem refinement_loop_bounded :
  exists p st,
    [/\ _compute_trajectory_loop pearsonr data_index waypoints D W
          max_iterations start_cell max_iterations = Some st,
        (p <= max_iterations.-1 <= max_iterations)%N,
        trajectory st = estimate p,
        forall j, (j.+1 < p)%N -> corr j <= convergence_threshold
      & (converged st -> (0 < p)%N /\ convergence_threshold < corr p.-1) /\
        (~~ converged st -> p = max_iterations.-1)].
Proof.
have I0 : loop_inv (RefineState (frame_loc waypoints D start_cell) false 1).
  by exists 0%N; split.
have [|st [E [p [Hit Htr Hp Hbefore Hconv]] Hexit]] :=
  while_invariant refine_body_inv I0 (fuel := max_iterations).
  by rewrite /= leq_subr.
exists p, st; split=> //; first by rewrite Hp leq_pred.
split; first by rewrite Hconv => /andP.
move=> Hnc; move: Hexit; rewrite /refine_cond Hnc /= -leqNgt Hit => Hge.
by apply/eqP; rewrite eqn_leq Hp -subn1 leq_subLR add1n.
Qed.

End TrajectoryEstimatorProofs.

(** ** Sparse matrices *)

Lemma big_uniq_pred1 (A : eqType) (s : seq A) (t : A) (F : A -> rat) :
  uniq s -> \sum_(a <- s | a == t) F a = if t \in s then F t else 0.
Proof.
elim: s => [|a s IH] /=; first by rewrite big_nil.
case/andP=> nin us; rewrite big_cons inE IH // [t == a]eq_sym.
case: eqP nin => [-> nin|_ _] /=; last by [].
by rewrite (negbTE nin) addr0.
Qed.

Section SparseMatrixProofs.

Variables m n : nat.
Implicit Types (M : 'M[rat]_(m, n)).

Lemma csr_map_find M (g : 'I_m -> rat -> rat) (i : 'I_m) (j : 'I_n) :
  csr_matrix [seq (e.1, g e.1.1 e.2) | e <- sparse_find M] i j =
    if M i j != 0 then g i (M i j) else 0.
Proof.
rewrite mxE /sparse_find !big_map big_filter_cond big_mkcond /=.
rewrite big_allpairs big_enum /= (bigD1 i) //= big_enum (bigD1 j) //= !eqxx.
rewrite big1 => [j' /negbTE ->|]; first by rewrite !andbF.
rewrite addr0 big1 => [i' /negbTE ni|].
  by rewrite big_enum big1 // => j' _; rewrite ni andbF.
by rewrite addr0 !andbT.
Qed.

Lemma csr_find M : csr_matrix (sparse_find M) = M.
Proof.
have Hmap : [seq (e.1, e.2) | e <- sparse_find M] = sparse_find M.
  by rewrite -[RHS]map_id; apply: eq_map; case.
apply/matrixP=> i j.
rewrite -Hmap (csr_map_find M (fun _ v => v)).
by case: eqP => // ->.
Qed.

Lemma normalize_entry M :
  exists2 T, _normalize_transition_matrix M = Ret T
           & forall i j, T i j = M i j / \sum_k M i k.
Proof.
exists (csr_matrix [seq (e.1, e.2 / \sum_k M e.1.1 k) | e <- sparse_find M]).
  by [].
move=> i j; rewrite (csr_map_find M (fun i v => v / \sum_k M i k)).
by case: eqP => // ->; rewrite mul0r.
Qed.

Lemma normalize_row_sum M T (i : 'I_m) :
  (forall j, T i j = M i j / \sum_k M i k) -> \sum_k M i k != 0 ->
  \sum_j T i j = 1.
Proof.
move=> HT Hnz; rewrite (eq_bigr (fun j => M i j / \sum_k M i k)) //.
by rewrite -mulr_suml divff.
Qed.

Lemma csr_row_sum (s : seq (triplet m n)) (i : 'I_m) (Q : pred 'I_n) :
  \sum_(j | Q j) csr_matrix s i j =
  \sum_(a <- s | (a.1.1 == i) && Q a.1.2) a.2.
Proof.
under eq_bigr do rewrite mxE big_mkcond.
rewrite exchange_big /= [RHS]big_mkcond; apply: eq_bigr => a _.
case Hi: (a.1.1 == i) => /=; last by rewrite big1.
rewrite -big_mkcondr /= big_mkcond (bigD1 a.1.2) //= eqxx andbT.
by rewrite big1 ?addr0 // => j /negbTE; rewrite eq_sym => ->; rewrite andbF.
Qed.

Lemma find_row_sum M (i : 'I_m) (Q : pred 'I_n) :
  \sum_(a <- sparse_find M | (a.1.1 == i) && Q a.1.2) a.2 =
  \sum_(j | Q j) M i j.
Proof. by rewrite -csr_row_sum csr_find. Qed.

Lemma mem_sparse_find M (a : triplet m n) :
  a \in sparse_find M -> a.2 = M a.1.1 a.1.2 /\ a.2 != 0.
Proof. by case/mapP=> ij; rewrite mem_filter => /andP[nz _] ->. Qed.

(** C2 (as the code has it). On a matrix without negative entries
    [_normalize_transition_matrix] raises nothing: it returns a matrix
    whose rows of total [0] (such a row has no entry but [0]) are again
    all [0], and whose other rows sum to [1]. *)
Theorem normalize_keeps_zero_rows M :
  (forall i j, 0 <= M i j) ->
  exists T,
    [/\ _normalize_transition_matrix M = Ret T,
        forall i, \sum_k M i k = 0 -> forall j, M i j = 0 /\ T i j = 0,
        forall i, \sum_k M i k != 0 -> \sum_j T i j = 1
      & forall i j, 0 <= T i j].
Proof.
move=> Mge0; have [T -> HT] := normalize_entry M.
exists T; split=> //.
- move=> i Hz j.
  have /eqP := Hz; rewrite psumr_eq0 // => /allP/(_ j).
  rewrite mem_index_enum => /(_ isT) /eqP M0.
  by rewrite HT M0 mul0r.
- by move=> i; apply: normalize_row_sum.
by move=> i j; rewrite HT divr_ge0 // sumr_ge0.
Qed.

End SparseMatrixProofs.

(** ** DirectedMarkovChainBuilder: the pruning rule *)

Lemma exact_cmp_sound : cmp_sound exact_cmp.
Proof. by split=> a b //= => [/eqP|/ltW]. Qed.

Lemma unequal_cmp_sound : cmp_sound unequal_cmp.
Proof. by split=> a b //= /ltW. Qed.

Lemma filter_iota_monotone (p : pred nat) (a k : nat) :
  (forall i, p i -> p i.+1) ->
  [seq i <- iota a k | p i] =
    iota (a + seq.find p (iota a k)) (k - seq.find p (iota a k)).
Proof.
move=> mono; elim: k a => [|k IH] a //=.
case Hp: (p a); last by rewrite IH subSS addSnnS.
rewrite addn0 subn0 /=; congr (_ :: _).
apply/all_filterP; apply/allP=> i; rewrite mem_iota => /andP[+ _].
elim: i => // i IHi; rewrite ltnS leq_eqVlt => /orP[/eqP <-|/IHi].
  exact: mono.
exact: mono.
Qed.

Lemma cumsum_take (w : seq rat) (i : nat) :
  \sum_(x <- take i.+1 w) x = \sum_(x <- take i w) x + nth 0 w i.
Proof.
case: (ltnP i (size w)) => Hi.
  by rewrite (take_nth 0 Hi) -cats1 big_cat big_seq1.
by rewrite !take_oversize ?nth_default ?addr0 // (leq_trans Hi).
Qed.

Lemma cumsum_mono (w : seq rat) (i : nat) :
  all (fun x => 0 <= x) w -> cumsum w i <= cumsum w i.+1.
Proof.
move=> w0; rewrite /cumsum (cumsum_take w i.+1) lerDl.
case: (ltnP i.+1 (size w)) => Hi; last by rewrite nth_default.
by apply: (allP w0); apply: mem_nth.
Qed.

Section PruningRule.

Variable n : nat.
Variable c : float_cmp.
Implicit Types (te : seq (triplet n n)).

Let weights te : seq rat := [seq e.2 | e <- te].
Let reaches te (diff : rat) : pred nat :=
  fun i => float_ge c (cumsum (weights te) i) diff.

Lemma cumsum_weights te (i : nat) :
  cumsum (weights te) i = \sum_(e <- take i.+1 te) e.2.
Proof. by rewrite /cumsum /weights -map_take big_map. Qed.

Lemma retain_back_edges_is_drop te :
  exists k, retain_back_edges c te = drop k te.
Proof.
rewrite /retain_back_edges; case: ifP => _; first by exists 0%N; rewrite drop0.
by case: ifP => _; [exists (size te); rewrite drop_size | eexists].
Qed.

Lemma retain_back_edges_nil :
  retain_back_edges c [::] = [::] :> seq (triplet n n).
Proof. by have [k ->] := retain_back_edges_is_drop [::]. Qed.

Lemma retain_back_edges_all te :
  float_eq c (\sum_(e <- te) e.2) 1 -> retain_back_edges c te = te.
Proof. by move=> B1; rewrite /retain_back_edges big_map B1. Qed.

Hypothesis c_sound : cmp_sound c.

Lemma reaches_mono te (diff : rat) (i : nat) :
  all (fun e => 0 < e.2) te -> reaches te diff i -> reaches te diff i.+1.
Proof.
have [_ ge_le lt_ge] := c_sound.
move=> w_pos; rewrite /reaches /cumsum.
case: (ltnP i.+1 (size te)) => Hi; last first.
  by rewrite !take_oversize // size_map // (leq_trans Hi).
move/ge_le => Hle; apply: lt_ge; apply: le_lt_trans Hle _.
have w_pos' : all (fun x => 0 < x) (weights te) by rewrite all_map.
rewrite (cumsum_take _ i.+1) ltrDl.
by apply: (allP w_pos'); apply: mem_nth; rewrite size_map.
Qed.

Lemma retain_back_edges_drop te :
  all (fun e => 0 < e.2) te ->
  let B := \sum_(e <- te) e.2 in
  ~~ float_eq c B 1 ->
  let i0 := seq.find (reaches te (B - (1 - B))) (iota 0 (size te)) in
  retain_back_edges c te = drop (minn i0.+1 (size te)) te.
Proof.
move=> w_pos B Bne1 i0; rewrite /retain_back_edges big_map (negbTE Bne1).
have mono i : reaches te (B - (1 - B)) i -> reaches te (B - (1 - B)) i.+1.
  exact: reaches_mono.
rewrite size_map -/(weights te) -/B.
rewrite (@filter_iota_monotone (reaches te (B - (1 - B))) _ _ mono).
rewrite add0n size_iota -/i0.
have Hi0 : (i0 <= size te)%N.
  by rewrite -[X in (_ <= X)%N](size_iota 0 (size te)) find_size.
case: (leqP (size te - i0) 1) => Hsz.
  rewrite (_ : minn _ _ = size te) ?drop_size //.
  apply/minn_idPr; rewrite -subn_eq0.
  by rewrite subnS -subn1 subn_eq0 in Hsz *.
rewrite nth_iota // addn1 (_ : minn _ _ = i0.+1) //.
by apply/minn_idPl; rewrite -subn_gt0 (leq_trans _ Hsz).
Qed.

Lemma retained_mass_le te :
  all (fun e => 0 < e.2) te ->
  let B := \sum_(e <- te) e.2 in
  ~~ float_eq c B 1 -> B <= 1 ->
  \sum_(e <- retain_back_edges c te) e.2 <= 1 - B.
Proof.
have [_ ge_le _] := c_sound.
move=> w_pos B Bne1 Ble1.
pose p := reaches te (B - (1 - B)); pose i0 := seq.find p (iota 0 (size te)).
have -> : retain_back_edges c te = drop (minn i0.+1 (size te)) te.
  exact: retain_back_edges_drop w_pos Bne1.
case: (ltnP i0 (size te)) => Hi0; last first.
  have -> : minn i0.+1 (size te) = size te.
    by apply/minn_idPr; exact: leq_trans Hi0 _.
  by rewrite drop_size big_nil; lra.
have has_p : has p (iota 0 (size te)) by rewrite has_find size_iota.
have : p i0 by have := nth_find 0%N has_p; rewrite nth_iota.
have -> : minn i0.+1 (size te) = i0.+1 by exact/minn_idPl.
rewrite /p /reaches => /ge_le; rewrite cumsum_weights.
have : B = \sum_(e <- take i0.+1 te) e.2 + \sum_(e <- drop i0.+1 te) e.2.
  by rewrite -big_cat cat_take_drop.
by lra.
Qed.

(** Backward edges that add up to exactly [1] while the doubles do not:
    the cumulative sum reaches [diff] at the last edge only, and nothing
    is retained. *)
Lemma retain_back_edges_none te :
  all (fun e => 0 < e.2) te -> \sum_(e <- te) e.2 = 1 ->
  ~~ float_eq c 1 1 -> retain_back_edges c te = [::].
Proof.
have [_ ge_le _] := c_sound.
move=> w_pos B1 ne1.
pose p := reaches te (1 - (1 - 1)); pose i0 := seq.find p (iota 0 (size te)).
have -> : retain_back_edges c te = drop (minn i0.+1 (size te)) te.
  by have := @retain_back_edges_drop te w_pos; rewrite /= B1; apply.
case: (ltnP i0.+1 (size te)) => Hi0; last by rewrite drop_size.
exfalso; have Hi : (i0 < size te)%N by exact: ltnW.
have has_p : has p (iota 0 (size te)) by rewrite has_find size_iota.
have : p i0 by have := nth_find 0%N has_p; rewrite nth_iota.
rewrite /p /reaches => /ge_le; rewrite cumsum_weights.
have : 1 = \sum_(e <- take i0.+1 te) e.2 + \sum_(e <- drop i0.+1 te) e.2.
  by rewrite -big_cat cat_take_drop.
have : 0 < \sum_(e <- drop i0.+1 te) e.2.
  case Ed: (drop i0.+1 te) => [|e d].
    by move/(congr1 size): Ed; rewrite size_drop /= => /eqP; rewrite subn_eq0 leqNgt Hi0.
  have Hin x : x \in e :: d -> 0 < x.2.
    by rewrite -Ed => /mem_drop; apply: (allP w_pos).
  rewrite big_cons; apply: ltr_wpDr; last by apply: Hin; rewrite mem_head.
  rewrite big_seq; apply: sumr_ge0 => x Hx.
  by apply: ltW; apply: Hin; rewrite inE Hx orbT.
by lra.
Qed.

Lemma weight_le_total : total (fun a b : triplet n n => a.2 <= b.2).
Proof. by move=> a b; exact: le_total. Qed.

Lemma weight_le_trans : transitive (fun a b : triplet n n => a.2 <= b.2).
Proof. by move=> a b d; exact: le_trans. Qed.

Lemma sum_sort_by_weight te :
  \sum_(e <- sort_by_weight te) e.2 = \sum_(e <- te) e.2.
Proof. by apply: perm_big; rewrite perm_sort. Qed.

(** C1 (as the code has it). For the backward edges of one source node,
    positive and of total mass [B < 1], sorted by ascending weight, the
    tests being those of the exact values away from ties: the edges
    dropped are the shortest non-empty prefix whose cumulative sum reaches
    [diff = B - (1 - B)] as the code tests it (such a prefix exists); its
    sum is at least [diff] and no shorter non-empty prefix has a sum above
    [diff]; all the edges after it are retained, be there several, one or
    none; and no retained edge weighs less than a dropped one. *)
Theorem backward_pruning_drops_smallest_prefix te0 :
  let test_edges := sort_by_weight te0 in
  let B := \sum_(e <- test_edges) e.2 in
  let diff := B - (1 - B) in
  let reached k := float_ge c (\sum_(e <- take k test_edges) e.2) diff in
  te0 != [::] -> all (fun e => 0 < e.2) te0 -> B < 1 ->
  exists k,
    [/\ (0 < k <= size test_edges)%N,
        reached k /\ (forall k', (0 < k' < k)%N -> ~~ reached k'),
        diff <= \sum_(e <- take k test_edges) e.2 /\
        (forall k', (0 < k' < k)%N ->
           \sum_(e <- take k' test_edges) e.2 <= diff),
        retain_back_edges c test_edges = drop k test_edges
      & forall a b, a \in take k test_edges -> b \in drop k test_edges ->
          a.2 <= b.2].
Proof.
have [eq_eq ge_le lt_ge] := c_sound.
move=> te B diff reached te0_ne w_pos Blt1.
have te_pos : all (fun e => 0 < e.2) te by rewrite all_sort.
have sz_pos : (0 < size te)%N by rewrite size_sort lt0n size_eq0.
have Bne1 : ~~ float_eq c B 1.
  by apply/negP=> /eq_eq B1; rewrite B1 ltxx in Blt1.
pose p := reaches te diff; pose i0 := seq.find p (iota 0 (size te)).
have pE i : p i = reached i.+1 by rewrite /p /reaches cumsum_weights.
have Hdrop : retain_back_edges c te = drop (minn i0.+1 (size te)) te.
  exact: retain_back_edges_drop te_pos Bne1.
have p_last : p (size te).-1.
  rewrite pE /reached prednK // take_size -/B; apply: lt_ge.
  by rewrite /diff; move: Blt1; lra.
have has_p : has p (iota 0 (size te)).
  by apply/hasP; exists (size te).-1; rewrite // mem_iota add0n prednK /=.
have Hi0 : (i0 < size te)%N.
  by move: has_p; rewrite has_find size_iota.
have p_i0 : p i0.
  by have := nth_find 0%N has_p; rewrite nth_iota.
have before k' : (0 < k' < i0.+1)%N -> ~~ reached k'.
  move=> /andP[k'pos]; rewrite ltnS => k'le.
  have Hlt : (k'.-1 < i0)%N by rewrite prednK.
  have Hk : (k'.-1 < size te)%N := ltn_trans Hlt Hi0.
  have := before_find 0%N Hlt; rewrite nth_iota // add0n.
  by rewrite pE prednK // => ->.
exists i0.+1; split.
- by rewrite /= Hi0.
- by split; [rewrite -pE | exact: before].
- split; first by apply: ge_le; rewrite -/(reached i0.+1) -pE.
  move=> k' /before; rewrite leNgt; apply: contra; exact: lt_ge.
- by rewrite Hdrop; congr drop; apply/minn_idPl.
move=> a b Ha Hb.
have : pairwise (fun a b : triplet n n => a.2 <= b.2) te.
  by rewrite -(sorted_pairwise weight_le_trans) sort_sorted //; exact: weight_le_total.
rewrite -(cat_take_drop i0.+1 te) pairwise_cat => /and3P[/allrelP H _ _].
exact: H.
Qed.

End PruningRule.

(** ** DirectedMarkovChainBuilder: the pruned chain *)

Section DirectedMarkovChainProofs.

Variable n : nat.
Variables (T : 'M[rat]_n) (trajectory : 'I_n -> rat).
Variable fp : 'I_n -> float_cmp.

Hypothesis T_ge0 : forall i j, 0 <= T i j.
Hypothesis T_stochastic : forall i, \sum_j T i j = 1.

Let xyw := sparse_find T.
Let fwd (a : triplet n n) := trajectory a.1.1 <= trajectory a.1.2.
Let back (a : triplet n n) := trajectory a.1.2 < trajectory a.1.1.
Let fwd_edges := [seq e <- xyw | fwd e].
Let back_edges := [seq e <- xyw | back e].
Let wps := rev (undup (rev [seq e.1.1 | e <- back_edges])).
Let te (wp : 'I_n) := sort_by_weight [seq e <- back_edges | e.1.1 == wp].
Let kept (wp : 'I_n) := retain_back_edges (fp wp) (te wp).
Let retained := foldl (prune_step fp back_edges) fwd_edges wps.
Let R : 'M[rat]_n := csr_matrix retained.

(** Forward, backward and retained backward mass of row [i]. *)
Let Fm (i : 'I_n) := \sum_(j | trajectory i <= trajectory j) T i j.
Let Bm (i : 'I_n) := \sum_(j | trajectory j < trajectory i) T i j.
Let Km (i : 'I_n) := \sum_(a <- kept i) a.2.

Lemma foldl_prune_step (r : seq (triplet n n)) (ws : seq 'I_n) :
  foldl (prune_step fp back_edges) r ws =
    r ++ flatten [seq kept wp | wp <- ws].
Proof.
elim: ws r => [|wp ws IH] r /=; first by rewrite cats0.
by rewrite IH /prune_step catA.
Qed.

Lemma retained_eq : retained = fwd_edges ++ flatten [seq kept wp | wp <- wps].
Proof. exact: foldl_prune_step. Qed.

Lemma mem_te (wp : 'I_n) (a : triplet n n) :
  a \in te wp = [&& a \in xyw, back a & a.1.1 == wp].
Proof. by rewrite /te mem_sort !mem_filter andbA andbC [back a && _]andbC. Qed.

Lemma kept_sub (wp : 'I_n) (a : triplet n n) :
  a \in kept wp -> [/\ a \in xyw, a.1.1 = wp & back a].
Proof.
rewrite /kept; have [k ->] := retain_back_edges_is_drop (fp wp) (te wp).
by move/mem_drop; rewrite mem_te => /and3P[? ? /eqP].
Qed.

Lemma xyw_ge0 (a : triplet n n) : a \in xyw -> 0 <= a.2.
Proof. by case/mem_sparse_find=> -> _. Qed.

Lemma te_gt0 (wp : 'I_n) : all (fun e => 0 < e.2) (te wp).
Proof.
apply/allP=> a; rewrite mem_te => /and3P[Ha _ _].
by rewrite lt_neqAle eq_sym xyw_ge0 // andbT; case/mem_sparse_find: Ha.
Qed.

Lemma wps_uniq : uniq wps.
Proof. by rewrite /wps rev_uniq undup_uniq. Qed.

Lemma kept_nil (i : 'I_n) : i \notin wps -> kept i = [::].
Proof.
rewrite /wps mem_rev mem_undup mem_rev => nin.
have te_nil : te i = [::].
  apply/eqP; rewrite -size_eq0 size_sort size_eq0 -[_ == _]negbK -has_filter.
  apply: contra nin => /hasP[a Ha /eqP <-]; exact: map_f.
by rewrite /kept te_nil retain_back_edges_nil.
Qed.

(** Sums over the retained edges of row [i]. *)

Lemma fwd_sum (i : 'I_n) (Q : pred 'I_n) :
  (forall j, Q j -> trajectory i <= trajectory j) ->
  \sum_(a <- fwd_edges | (a.1.1 == i) && Q a.1.2) a.2 = \sum_(j | Q j) T i j.
Proof.
move=> HQ; rewrite big_filter_cond -find_row_sum; apply: eq_bigl => a.
case: eqP => [Hi|]; rewrite ?andbF //=.
by case HQa: (Q a.1.2); rewrite ?andbF // /fwd Hi HQ.
Qed.

Lemma fwd_sum_back (i : 'I_n) (Q : pred 'I_n) :
  (forall j, Q j -> trajectory j < trajectory i) ->
  \sum_(a <- fwd_edges | (a.1.1 == i) && Q a.1.2) a.2 = 0.
Proof.
move=> HQ; rewrite big_filter_cond big_pred0 // => a.
case: eqP => [Hi|]; rewrite ?andbF //=.
case HQa: (Q a.1.2); rewrite ?andbF // andbT /fwd Hi.
by apply/negbTE; rewrite -ltNge HQ.
Qed.

Lemma kept_sum_fwd (i : 'I_n) (Q : pred 'I_n) :
  (forall j, Q j -> trajectory i <= trajectory j) ->
  \sum_(a <- flatten [seq kept wp | wp <- wps] | (a.1.1 == i) && Q a.1.2) a.2
    = 0.
Proof.
move=> HQ; rewrite big_flatten /= big_map big1 // => wp _.
rewrite big_seq_cond big_pred0 // => a.
apply/negP=> /and3P[/kept_sub[_ _ Hb] /eqP Hi /HQ].
by rewrite leNgt -Hi; move: Hb; rewrite /back => ->.
Qed.

Lemma kept_sum_back (i : 'I_n) :
  \sum_(a <- flatten [seq kept wp | wp <- wps]
       | (a.1.1 == i) && (trajectory a.1.2 < trajectory i)) a.2 = Km i.
Proof.
rewrite big_flatten /= big_map.
have HG wp : \sum_(a <- kept wp
                  | (a.1.1 == i) && (trajectory a.1.2 < trajectory i)) a.2 =
             if wp == i then Km i else 0.
  rewrite big_seq_cond; case: eqP => [->|ne].
    rewrite /Km [RHS]big_seq; apply: eq_bigl => a.
    case Ha: (a \in kept i) => //; have [_ Hi Hb] := kept_sub Ha.
    by rewrite Hi eqxx /=; move: Hb; rewrite /back Hi => ->.
  rewrite big_pred0 // => a; apply/negP=> /and3P[/kept_sub[_ Hwp _] /eqP Hi _].
  by apply: ne; rewrite -Hwp.
rewrite (eq_bigr _ (fun wp _ => HG wp)) -big_mkcond /=.
rewrite (big_uniq_pred1 _ (fun=> Km i) wps_uniq).
by case: ifP => // /negbT/kept_nil E; rewrite /Km E big_nil.
Qed.

Lemma R_fwd_mass (i : 'I_n) :
  \sum_(j | trajectory i <= trajectory j) R i j = Fm i.
Proof.
rewrite /R csr_row_sum retained_eq big_cat.
have HQ j : trajectory i <= trajectory j -> trajectory i <= trajectory j by [].
by rewrite (fwd_sum HQ) (kept_sum_fwd HQ) /= addr0.
Qed.

Lemma R_back_mass (i : 'I_n) :
  \sum_(j | trajectory j < trajectory i) R i j = Km i.
Proof.
rewrite /R csr_row_sum retained_eq big_cat.
have HQ j : trajectory j < trajectory i -> trajectory j < trajectory i by [].
by rewrite (fwd_sum_back HQ) kept_sum_back /= add0r.
Qed.

Lemma R_fwd_entry (i j : 'I_n) :
  trajectory i <= trajectory j -> R i j = T i j.
Proof.
move=> Hij.
have <- : \sum_(j' | j' == j) R i j' = R i j by rewrite big_pred1_eq.
rewrite /R csr_row_sum retained_eq big_cat.
have Hj j' : j' == j -> trajectory i <= trajectory j' by move/eqP->.
by rewrite (fwd_sum Hj) (kept_sum_fwd Hj) /= addr0 big_pred1_eq.
Qed.

Lemma mass_split (A : 'M[rat]_n) (i : 'I_n) :
  \sum_j A i j = \sum_(j | trajectory i <= trajectory j) A i j
               + \sum_(j | trajectory j < trajectory i) A i j.
Proof.
rewrite (bigID (fun j => trajectory i <= trajectory j)) /=; congr (_ + _).
by apply: eq_bigl => j; rewrite ltNge.
Qed.

Lemma Fm_ge0 (i : 'I_n) : 0 <= Fm i.
Proof. by apply: sumr_ge0. Qed.

Lemma Bm_ge0 (i : 'I_n) : 0 <= Bm i.
Proof. by apply: sumr_ge0. Qed.

Lemma Fm_Bm (i : 'I_n) : Fm i + Bm i = 1.
Proof. by rewrite -mass_split. Qed.

Lemma te_mass (i : 'I_n) : \sum_(a <- te i) a.2 = Bm i.
Proof.
rewrite sum_sort_by_weight big_filter big_filter_cond.
rewrite /Bm -(find_row_sum T i (fun j => trajectory j < trajectory i)).
apply: eq_bigl => a; rewrite /back andbC.
by case: eqP => [->|].
Qed.

Lemma Km_ge0 (i : 'I_n) : 0 <= Km i.
Proof.
rewrite /Km big_seq; apply: sumr_ge0 => a /kept_sub[Ha _ _].
exact: xyw_ge0.
Qed.

Lemma Km_all (i : 'I_n) : float_eq (fp i) (Bm i) 1 -> Km i = Bm i.
Proof.
by move=> B1; rewrite /Km /kept retain_back_edges_all te_mass.
Qed.

Lemma R_row_sum (i : 'I_n) : \sum_j R i j = Fm i + Km i.
Proof. by rewrite mass_split R_fwd_mass R_back_mass. Qed.

Lemma R_row_sum_gt0 (i : 'I_n) : 0 < Fm i -> 0 < \sum_j R i j.
Proof. by rewrite R_row_sum; have := Km_ge0 i; lra. Qed.

Lemma Fm_gt0 (i j : 'I_n) :
  trajectory i <= trajectory j -> T i j != 0 -> 0 < Fm i.
Proof.
move=> Hij Tnz; rewrite lt_neqAle Fm_ge0 andbT eq_sym; apply: contra Tnz.
rewrite /Fm psumr_eq0 // => /allP/(_ j); rewrite mem_index_enum Hij.
by move/(_ isT)/implyP; apply.
Qed.

Lemma Fm_eq0 (i : 'I_n) :
  (forall j, trajectory i <= trajectory j -> T i j = 0) ->
  Fm i = 0 /\ Bm i = 1.
Proof.
move=> Hf; have F0 : Fm i = 0 by rewrite /Fm big1.
by split=> //; have := Fm_Bm i; lra.
Qed.

(** Further properties of the pruned chain. *)

Lemma kept_sum_cond (i : 'I_n) (Q : pred 'I_n) :
  \sum_(a <- flatten [seq kept wp | wp <- wps] | (a.1.1 == i) && Q a.1.2) a.2
    = \sum_(a <- kept i | Q a.1.2) a.2.
Proof.
rewrite big_flatten /= big_map.
have HG wp : \sum_(a <- kept wp | (a.1.1 == i) && Q a.1.2) a.2 =
             if wp == i then \sum_(a <- kept i | Q a.1.2) a.2 else 0.
  rewrite big_seq_cond; case: eqP => [->|ne].
    rewrite [RHS]big_seq_cond; apply: eq_bigl => a.
    case Ha: (a \in kept i) => //; have [_ Hi _] := kept_sub Ha.
    by rewrite Hi eqxx.
  rewrite big_pred0 // => a; apply/negP=> /and3P[/kept_sub[_ Hwp _] /eqP Hi _].
  by apply: ne; rewrite -Hwp.
rewrite (eq_bigr _ (fun wp _ => HG wp)) -big_mkcond /=.
rewrite (big_uniq_pred1 _ (fun=> \sum_(a <- kept i | Q a.1.2) a.2) wps_uniq).
by case: ifP => // /negbT/kept_nil ->; rewrite big_nil.
Qed.

Lemma te_sum_cond (i : 'I_n) (Q : pred 'I_n) :
  (forall j, Q j -> trajectory j < trajectory i) ->
  \sum_(a <- te i | Q a.1.2) a.2 = \sum_(j | Q j) T i j.
Proof.
move=> HQ; rewrite /te /sort_by_weight.
rewrite (perm_big _ (introT permPl (perm_sort _ _))) /=.
rewrite big_filter_cond big_filter_cond -find_row_sum.
apply: eq_bigl => a; rewrite /back.
case: eqP => [Hi|]; rewrite ?andbF //=.
by case HQa: (Q a.1.2); rewrite ?andbF // Hi HQ.
Qed.

Lemma kept_le_te (i : 'I_n) (Q : pred 'I_n) :
  \sum_(a <- kept i | Q a.1.2) a.2 <= \sum_(a <- te i | Q a.1.2) a.2.
Proof.
rewrite /kept; have [k ->] := retain_back_edges_is_drop (fp i) (te i).
rewrite -[X in _ <= \sum_(a <- X | _) _](cat_take_drop k) big_cat /=.
rewrite lerDr big_seq_cond; apply: sumr_ge0 => a /andP[/mem_take Ha _].
by move: Ha; rewrite mem_te => /and3P[/xyw_ge0].
Qed.

Lemma R_back_entry (i j : 'I_n) :
  trajectory j < trajectory i ->
  R i j = \sum_(a <- kept i | a.1.2 == j) a.2.
Proof.
move=> Hij.
have <- : \sum_(j' | j' == j) R i j' = R i j by rewrite big_pred1_eq.
rewrite /R csr_row_sum retained_eq big_cat.
have Hj j' : j' == j -> trajectory j' < trajectory i by move/eqP->.
by rewrite (fwd_sum_back Hj) (kept_sum_cond i (fun j' => j' == j)) /= add0r.
Qed.

Lemma R_back_entry_bounds (i j : 'I_n) :
  trajectory j < trajectory i -> 0 <= R i j <= T i j.
Proof.
move=> Hij; rewrite R_back_entry //; apply/andP; split.
  rewrite big_seq_cond; apply: sumr_ge0 => a /andP[/kept_sub[Ha _ _] _].
  exact: xyw_ge0.
apply: le_trans (kept_le_te i (pred1 j)) _.
have Hj j' : j' == j -> trajectory j' < trajectory i by move/eqP->.
by rewrite (te_sum_cond Hj) big_pred1_eq.
Qed.

Lemma Km_le_Bm (i : 'I_n) : Km i <= Bm i.
Proof. by rewrite /Km -te_mass; exact: (kept_le_te i xpredT). Qed.

Lemma R_row_sum_le1 (i : 'I_n) : \sum_j R i j <= 1.
Proof. by rewrite R_row_sum -(Fm_Bm i) lerD2l Km_le_Bm. Qed.

Lemma R_ge0 (i j : 'I_n) : 0 <= R i j.
Proof.
case: (leP (trajectory i) (trajectory j)) => Hij.
  by rewrite R_fwd_entry.
by have /andP[] := R_back_entry_bounds Hij.
Qed.

(** X7. For a transition matrix [T] without negative entries whose rows
    sum to [1], the matrix [T'] returned by
    [_construct_phenotypic_markov_chain] has no negative entry, has no
    edge where [T] had none, and gives every forward edge at least the
    probability it had in [T]; this holds however the tests of lines 379
    and 384 come out. *)
Theorem pruned_chain_no_new_edge :
  exists T' : 'M[rat]_n,
    [/\ _construct_phenotypic_markov_chain fp T trajectory = Ret T',
        forall i j, 0 <= T' i j,
        forall i j, T i j = 0 -> T' i j = 0
      & forall i j, trajectory i <= trajectory j -> T i j <= T' i j].
Proof.
have [T' E HT'] := normalize_entry R.
have Rs_ge0 i : 0 <= \sum_k R i k by apply: sumr_ge0 => k _; exact: R_ge0.
exists T'; split=> // [i j|i j T0|i j Hij]; rewrite HT'.
- by rewrite divr_ge0 ?R_ge0.
- case: (leP (trajectory i) (trajectory j)) => Hij.
    by rewrite R_fwd_entry // T0 mul0r.
  have := R_back_entry_bounds Hij; rewrite T0 -eq_le => /eqP <-.
  by rewrite mul0r.
rewrite R_fwd_entry //; case: (eqVneq (T i j) 0) => [->|Tnz].
  by rewrite mul0r.
have Rpos := R_row_sum_gt0 (Fm_gt0 Hij Tnz).
rewrite ler_pdivlMr //.
by rewrite -[leRHS]mulr1 ler_wpM2l // R_row_sum_le1.
Qed.

(** From here on the tests are those of the exact values away from
    ties. *)
Hypothesis fp_sound : forall i, cmp_sound (fp i).

Lemma Km_le_Fm (i : 'I_n) : ~~ float_eq (fp i) (Bm i) 1 -> Km i <= Fm i.
Proof.
move=> Bne1; have HF := Fm_Bm i; have HF0 := Fm_ge0 i.
have := @retained_mass_le n (fp i) (fp_sound i) (te i) (te_gt0 i).
rewrite /= te_mass -/(kept i) -/(Km i) => /(_ Bne1) H.
by have := H _; lra.
Qed.

Lemma Km_dropped (i : 'I_n) :
  Bm i = 1 -> ~~ float_eq (fp i) 1 1 -> Km i = 0.
Proof.
move=> B1 ne1; have Hte : \sum_(e <- te i) e.2 = 1 by rewrite te_mass.
rewrite /Km /kept.
by rewrite (retain_back_edges_none (fp_sound i) (te_gt0 i) Hte ne1) big_nil.
Qed.

(** X14. Let [T] be a transition matrix without negative entries whose
    rows sum to [1], and let the tests of lines 379 and 384 be those of
    the exact values away from ties.  Then
    [_construct_phenotypic_markov_chain] returns a matrix [T'] in which
    every forward edge of [T] (target's trajectory value at least the
    source's) is still an edge, and in which every row that has a forward
    edge sums to [1] and has a forward mass at least its backward mass. *)
Theorem pruned_chain_forward_biased :
  exists T' : 'M[rat]_n,
    [/\ _construct_phenotypic_markov_chain fp T trajectory = Ret T',
        forall i j, trajectory i <= trajectory j -> T i j != 0 ->
          T' i j != 0
      & forall i,
          (exists2 j, trajectory i <= trajectory j & T' i j != 0) ->
          \sum_j T' i j = 1 /\
          \sum_(j | trajectory j < trajectory i) T' i j <=
          \sum_(j | trajectory i <= trajectory j) T' i j].
Proof.
have [T' E HT'] := normalize_entry R.
exists T'; split=> //.
  move=> i j Hij Tnz; rewrite HT' R_fwd_entry // mulf_neq0 // invr_neq0 //.
  by rewrite gt_eqF // R_row_sum_gt0 // (Fm_gt0 Hij Tnz).
move=> i [j Hij]; rewrite HT' R_fwd_entry // => nz.
have Tnz : T i j != 0 by apply: contra_neq nz => ->; rewrite mul0r.
have Fpos := Fm_gt0 Hij Tnz; have Rpos := R_row_sum_gt0 Fpos.
split; first by apply: (normalize_row_sum (HT' i)); rewrite gt_eqF.
have HKF : Km i <= Fm i.
  apply: Km_le_Fm; apply/negP; have [eq_eq _ _] := fp_sound i.
  by move/eq_eq => B1; have := Fm_Bm i; move: Fpos; lra.
rewrite (eq_bigr (fun j => R i j / \sum_k R i k)) //.
rewrite [X in _ <= X](eq_bigr (fun j => R i j / \sum_k R i k)) //.
by rewrite -!mulr_suml R_back_mass R_fwd_mass ler_pM2r ?invr_gt0.
Qed.

(** Rows that have edges of one kind only. *)
Lemma pruned_chain_rows :
  exists T' : 'M[rat]_n,
    [/\ _construct_phenotypic_markov_chain fp T trajectory = Ret T',
        forall i, (forall j, trajectory j < trajectory i -> T i j = 0) ->
          forall j, T' i j = T i j
      & forall i, (forall j, trajectory i <= trajectory j -> T i j = 0) ->
          forall j, T' i j = if float_eq (fp i) 1 1 then T i j else 0].
Proof.
have [T' E HT'] := normalize_entry R.
exists T'; split=> // i Hrow j; rewrite HT'.
  have HF := Fm_Bm i.
  have B0 : Bm i = 0 by rewrite /Bm big1.
  have K0 : Km i = 0.
    by apply/eqP; rewrite eq_le Km_ge0 andbT -B0 Km_le_Bm.
  have -> : \sum_k R i k = 1 by rewrite R_row_sum K0; lra.
  rewrite divr1; case: (leP (trajectory i) (trajectory j)) => Hij.
    exact: R_fwd_entry.
  by have := R_back_entry_bounds Hij; rewrite Hrow // -eq_le => /eqP.
have [F0 B1] := Fm_eq0 Hrow.
case Heq: (float_eq (fp i) 1 1); last first.
  have K0 : Km i = 0 by rewrite Km_dropped // Heq.
  by rewrite R_row_sum F0 K0 addr0 invr0 mulr0.
have Hkept : kept i = te i.
  by rewrite /kept retain_back_edges_all // te_mass B1.
have -> : \sum_k R i k = 1 by rewrite R_row_sum F0 /Km Hkept te_mass B1 add0r.
rewrite divr1; case: (leP (trajectory i) (trajectory j)) => Hij.
  exact: R_fwd_entry.
rewrite R_back_entry // Hkept.
have Hj j' : j' == j -> trajectory j' < trajectory i by move/eqP->.
by rewrite (te_sum_cond Hj) big_pred1_eq.
Qed.

(** X8. Under the same hypotheses, a row of [T] that has no backward
    edge is the same row in the matrix returned; a row that has no
    forward edge is the same row when its weights test equal to [1] at
    line 379 and a row of zeros otherwise.  So pruning changes only nodes
    that have edges of both kinds, and drops nodes without forward edge
    whose doubles do not add up to exactly [1]. *)
Theorem pruned_chain_one_sided_rows :
  exists T' : 'M[rat]_n,
    [/\ _construct_phenotypic_markov_chain fp T trajectory = Ret T',
        forall i, (forall j, trajectory j < trajectory i -> T i j = 0) ->
          forall j, T' i j = T i j
      & forall i, (forall j, trajectory i <= trajectory j -> T i j = 0) ->
          forall j, T' i j = if float_eq (fp i) 1 1 then T i j else 0].
Proof. exact: pruned_chain_rows. Qed.

End DirectedMarkovChainProofs.

(** * Examples, witnesses and counterexamples *)

Lemma matrix_of_rows_row (n : nat) (rows : seq (seq rat)) (P : seq rat -> bool)
    (i : 'I_n) :
  size rows == n -> all P rows -> P (nth [::] rows i).
Proof.
move=> /eqP sz /allP; apply; apply: mem_nth; by rewrite sz.
Qed.

Lemma stochastic_rows_ge0 (n : nat) (rows : seq (seq rat)) :
  stochastic_rows n rows -> forall i j, 0 <= matrix_of_rows n rows i j.
Proof.
case/andP=> sz Hall i j; rewrite mxE.
have /and3P[/eqP szr _ /allP H] := matrix_of_rows_row i sz Hall.
by apply: H; apply: mem_nth; rewrite szr.
Qed.

Lemma stochastic_rows_sum (n : nat) (rows : seq (seq rat)) :
  stochastic_rows n rows -> forall i, \sum_j matrix_of_rows n rows i j = 1.
Proof.
case/andP=> sz Hall i.
have /and3P[/eqP szr /eqP Hsum _] := matrix_of_rows_row i sz Hall.
under eq_bigr do rewrite mxE.
set r := nth _ _ _ in szr Hsum *.
have : \sum_(x <- r) x = 1 by rewrite -Hsum unlock.
by rewrite (big_nth 0) szr big_mkord.
Qed.

Lemma toy_chain_stochastic : stochastic_rows 3
  [:: [:: 0; 1%:Q / 2%:Q; 1%:Q / 2%:Q];
      [:: 1%:Q / 4%:Q; 0; 3%:Q / 4%:Q];
      [:: 1%:Q / 8%:Q; 1%:Q / 4%:Q; 5%:Q / 8%:Q]].
Proof. by vm_compute. Qed.

Lemma toy_last_chain_stochastic : stochastic_rows 4
  [:: [:: 0; 1%:Q / 2%:Q; 1%:Q / 2%:Q; 0];
      [:: 0; 0; 1%:Q / 2%:Q; 1%:Q / 2%:Q];
      [:: 0; 0; 0; 1];
      [:: 8%:Q / 35%:Q; 9%:Q / 35%:Q; 18%:Q / 35%:Q; 0]].
Proof. by vm_compute. Qed.

(** The sampler on [toy_frame]: two picks per column, three distinct
    labels. *)
Example max_min_sampling_toy :
  _max_min_sampling toy_frame 4 (fun c => c.+1) = Ret [:: 11; 10; 12]%N.
Proof. by vm_compute. Qed.

Lemma max_min_sampling_witness :
  exists waypoints,
    [/\ _max_min_sampling toy_frame 4 (fun c => c.+1) = Ret waypoints,
        uniq waypoints, (size waypoints <= 4)%N
      & {subset waypoints <= df_index toy_frame}].
Proof. by apply: max_min_sampling_at_most_num_waypoints. Defined.

Lemma max_min_sampling_fails_witness :
  _max_min_sampling toy_frame 1 (fun c => c.+1) = Raise IndexError.
Proof. by apply: (@max_min_sampling_fails_below_columns toy_frame 1). Defined.

(** C2, counterexample. The first row of [zero_row_matrix] has total
    affinity [0]; the routine raises nothing and returns a matrix whose
    first row is all [0]. *)
Lemma normalize_zero_row_returns :
  [/\ \sum_j zero_row_matrix ord0 j = 0,
      forall e, _normalize_transition_matrix zero_row_matrix <> Raise e
    & exists2 T, _normalize_transition_matrix zero_row_matrix = Ret T
               & forall j, T ord0 j = 0].
Proof.
have Hrow j : zero_row_matrix ord0 j = 0.
  by rewrite mxE /=; case: j => [[|[|j]]].
split=> //; first by rewrite big1.
have [T E HT] := normalize_entry zero_row_matrix.
by exists T => // j; rewrite HT Hrow mul0r.
Qed.

Lemma normalize_keeps_zero_rows_witness :
  exists T,
    [/\ _normalize_transition_matrix zero_row_matrix = Ret T,
        forall i, \sum_k zero_row_matrix i k = 0 ->
          forall j, zero_row_matrix i j = 0 /\ T i j = 0,
        forall i, \sum_k zero_row_matrix i k != 0 -> \sum_j T i j = 1
      & forall i j, 0 <= T i j].
Proof.
apply: normalize_keeps_zero_rows => i j; rewrite mxE.
by case: i => [[|[|i]]] //= _; case: j => [[|[|j]]].
Defined.

(** C1, counterexample. Backward edges of weights 1/16, 1/4 and 5/16
    (so [B = 5/8] and [diff = 1/4]): the smallest prefix reaching [diff]
    is the first two edges, one edge survives the cut (fewer than 2), and
    the code retains it, whereas the rule as the specification words it
    retains nothing.  And backward edges of weights 1/8 and 1/4 (so
    [B = 3/8] and [diff = -1/4]): no edge need go for the cumulative sum
    to reach [diff], yet the code drops the lightest edge, and retains the
    single edge that is left. *)
Lemma pruning_keeps_single_survivor :
  [/\ (size (drop 2 (sort_by_weight toy_test_edges)) < 2)%N,
      retain_back_edges exact_cmp (sort_by_weight toy_test_edges) =
        drop 2 (sort_by_weight toy_test_edges),
      spec_retain_back_edges (sort_by_weight toy_test_edges) = [::],
      retain_back_edges exact_cmp (sort_by_weight toy_test_edges) <>
        spec_retain_back_edges (sort_by_weight toy_test_edges)
    & \sum_(e <- toy_light_edges) e.2 - (1 - \sum_(e <- toy_light_edges) e.2)
        < 0 /\
      retain_back_edges exact_cmp (sort_by_weight toy_light_edges) =
        drop 1 (sort_by_weight toy_light_edges)].
Proof.
have H1 : retain_back_edges exact_cmp (sort_by_weight toy_test_edges) ==
          drop 2 (sort_by_weight toy_test_edges).
  by rewrite /retain_back_edges /cumsum !unlock; vm_compute.
have H2 : spec_retain_back_edges (sort_by_weight toy_test_edges) == [::].
  by rewrite /spec_retain_back_edges /cumsum !unlock; vm_compute.
have H3 : retain_back_edges exact_cmp (sort_by_weight toy_light_edges) ==
          drop 1 (sort_by_weight toy_light_edges).
  by rewrite /retain_back_edges /cumsum !unlock; vm_compute.
split; [by [] | exact/eqP | exact/eqP | by rewrite (eqP H1) (eqP H2) |].
by split; [rewrite unlock; vm_compute | exact/eqP].
Qed.

Lemma backward_pruning_witness :
  exists k,
    [/\ (0 < k <= size (sort_by_weight toy_test_edges))%N,
        float_ge exact_cmp
          (\sum_(e <- take k (sort_by_weight toy_test_edges)) e.2)
          (\sum_(e <- sort_by_weight toy_test_edges) e.2
            - (1 - \sum_(e <- sort_by_weight toy_test_edges) e.2)) /\
        (forall k', (0 < k' < k)%N ->
           ~~ float_ge exact_cmp
             (\sum_(e <- take k' (sort_by_weight toy_test_edges)) e.2)
             (\sum_(e <- sort_by_weight toy_test_edges) e.2
               - (1 - \sum_(e <- sort_by_weight toy_test_edges) e.2))),
        \sum_(e <- sort_by_weight toy_test_edges) e.2
          - (1 - \sum_(e <- sort_by_weight toy_test_edges) e.2)
          <= \sum_(e <- take k (sort_by_weight toy_test_edges)) e.2 /\
        (forall k', (0 < k' < k)%N ->
           \sum_(e <- take k' (sort_by_weight toy_test_edges)) e.2
           <= \sum_(e <- sort_by_weight toy_test_edges) e.2
              - (1 - \sum_(e <- sort_by_weight toy_test_edges) e.2)),
        retain_back_edges exact_cmp (sort_by_weight toy_test_edges) =
          drop k (sort_by_weight toy_test_edges)
      & forall a b, a \in take k (sort_by_weight toy_test_edges) ->
          b \in drop k (sort_by_weight toy_test_edges) -> a.2 <= b.2].
Proof.
apply: (backward_pruning_drops_smallest_prefix exact_cmp_sound); first by [].
- by vm_compute.
- by rewrite unlock; vm_compute.
Defined.

Lemma pruned_chain_witness :
  exists T' : 'M[rat]_3,
    [/\ _construct_phenotypic_markov_chain (fun=> exact_cmp) toy_chain
          toy_trajectory = Ret T',
        forall i j, toy_trajectory i <= toy_trajectory j ->
          toy_chain i j != 0 -> T' i j != 0
      & forall i,
          (exists2 j, toy_trajectory i <= toy_trajectory j & T' i j != 0) ->
          \sum_j T' i j = 1 /\
          \sum_(j | toy_trajectory j < toy_trajectory i) T' i j <=
          \sum_(j | toy_trajectory i <= toy_trajectory j) T' i j].
Proof.
apply: pruned_chain_forward_biased.
- exact: (stochastic_rows_ge0 toy_chain_stochastic).
- exact: (stochastic_rows_sum toy_chain_stochastic).
- by move=> i; exact: exact_cmp_sound.
Defined.

Lemma toy_last_row_backward (j : 'I_4) :
  toy_last_trajectory ord_max <= toy_last_trajectory j ->
  toy_last_chain ord_max j = 0.
Proof.
rewrite /toy_last_trajectory mxE /=.
by case: j => [[|[|[|[|j]]]] Hj].
Qed.

(** C3. The matrix returned can have a row that does not sum to [1].
    In [toy_last_chain], whose rows sum to [1], the last waypoint has
    backward edges only.  The doubles of its row add up to
    0.9999999999999999, so that the test [back_prob == 1], which is there
    to keep such a row, fails; [diff] is 0.9999999999999998, the
    cumulative sum reaches it at the last edge only, the code [continue]s
    and the row is dropped: the matrix returned has a row of zeros. *)
Lemma all_backward_row_dropped :
  [/\ forall i j, 0 <= toy_last_chain i j,
      forall i, \sum_j toy_last_chain i j = 1,
      cmp_sound unequal_cmp
    & exists T' : 'M[rat]_4,
        [/\ _construct_phenotypic_markov_chain (fun=> unequal_cmp)
              toy_last_chain toy_last_trajectory = Ret T',
            forall j, T' ord_max j = 0
          & \sum_j T' ord_max j != 1]].
Proof.
have T_ge0 := stochastic_rows_ge0 toy_last_chain_stochastic.
have T_sum := stochastic_rows_sum toy_last_chain_stochastic.
split=> //; first exact: unequal_cmp_sound.
have [T' [E _ Hrow]] :=
  @pruned_chain_rows 4 toy_last_chain toy_last_trajectory (fun=> unequal_cmp)
    T_ge0 T_sum (fun=> unequal_cmp_sound).
have H0 j : T' ord_max j = 0 by rewrite (Hrow _ toy_last_row_backward).
exists T'; split=> //.
by rewrite big1 // eq_sym oner_eq0.
Qed.

(** ** AbsorptionSolver: the fundamental matrix *)

Section FundamentalMatrix.

Variable m : nat.
Variable Q : 'M[rat]_m.

Hypothesis Q_ge0 : forall i j, 0 <= Q i j.
Hypothesis Q_le1 : forall i, \sum_j Q i j <= 1.

Lemma weighted_min (S : {set 'I_m}) (z : 'I_m -> rat) (i : 'I_m) (mv : rat) :
  (forall j, j \in S -> mv <= z j) ->
  (forall j, j \notin S -> Q i j = 0) ->
  \sum_j Q i j * z j <= mv * \sum_j Q i j ->
  forall j, Q i j != 0 -> z j = mv.
Proof.
move=> Hmin Hout Hle.
have term_ge0 j : 0 <= Q i j * (z j - mv).
  case HS: (j \in S); first by rewrite mulr_ge0 // subr_ge0 Hmin.
  by rewrite Hout ?mul0r // HS.
have Hsum : \sum_j Q i j * (z j - mv) = 0.
  apply/eqP; rewrite eq_le sumr_ge0 // andbT.
  under eq_bigr do rewrite mulrBr.
  by rewrite sumrB -mulr_suml subr_le0 mulrC.
move=> j Qnz; have /(_ j isT)/eqP := psumr_eq0P (fun j _ => term_ge0 j) Hsum.
by rewrite mulf_eq0 (negbTE Qnz) /= subr_eq0 => /eqP.
Qed.

Lemma inverse_entry (a : nat) (x : 'M[rat]_(m, a)) (i : 'I_m) (k : 'I_a) :
  ((1%:M - Q) *m x) i k = x i k - \sum_j Q i j * x j k.
Proof. by rewrite mulmxBl mul1mx !mxE. Qed.

(** Where [I - Q] has an inverse, no class of states is closed under [Q]
    and keeps all its mass. *)
Lemma no_closed_class (N : 'M[rat]_m) (S : {set 'I_m}) :
  (1%:M - Q) *m N = 1%:M ->
  S != set0 ->
  (forall i j, i \in S -> j \notin S -> Q i j = 0) ->
  (forall i, i \in S -> \sum_j Q i j = 1) -> False.
Proof.
move=> N_inverse.
move: {2}#|S| (leqnn #|S|) => k; elim: k S => [|k IH] S.
  by rewrite leqn0 cards_eq0 => ->.
move=> Hcard /set0Pn[k0 k0S] Hclosed Hstoch.
pose y j := N j k0.
have Hy i : y i - \sum_j Q i j * y j = (i == k0)%:R.
  by rewrite -inverse_entry N_inverse mxE.
have [i0 i0S Hmin] := arg_minP y k0S.
pose S' := [set i in S | y i == y i0].
have sub : S' \subset S by apply/subsetP=> i; rewrite inE => /andP[].
have Hstep i : i \in S' -> i != k0 /\ forall j, Q i j != 0 -> j \in S'.
  rewrite inE => /andP[iS /eqP yi].
  have Hge : y i0 <= \sum_j Q i j * y j.
    rewrite -[leLHS]mulr1 -(Hstoch i iS) mulr_sumr ler_sum // => j _.
    case HS: (j \in S); last by rewrite (Hclosed i j) ?HS // mulr0 mul0r.
    by rewrite mulrC ler_wpM2l // Hmin.
  have Hk : (i == k0) = false.
    apply/negbTE/negP=> ik0; have := Hy i; rewrite ik0 yi /=.
    by move: Hge; set s := \sum_j _; lra.
  have Hle : \sum_j Q i j * y j <= y i0 * \sum_j Q i j.
    have := Hy i; rewrite Hk yi /= (Hstoch i iS) mulr1.
    by set s := \sum_j _; lra.
  split; first by rewrite Hk.
  move=> j Qnz; rewrite inE.
  have jS : j \in S by apply: contraNT Qnz => /(Hclosed i j iS) ->.
  by rewrite jS (weighted_min Hmin (Hclosed i ^~ iS) Hle Qnz) eqxx.
apply: (IH S').
- rewrite -ltnS; apply: leq_trans Hcard; apply: proper_card.
  rewrite properE sub; apply/subsetPn; exists k0 => //.
  by apply/negP=> /Hstep[]; rewrite eqxx.
- by apply/set0Pn; exists i0; rewrite inE eqxx andbT; exact: i0S.
- move=> i j iS' jS'; apply/eqP/negP=> /negP Qnz.
  by have [_ /(_ j Qnz)] := Hstep i iS'; rewrite (negbTE jS').
by move=> i iS'; apply: Hstoch; apply: (subsetP sub).
Qed.

(** Conversely: every class of states that is closed under [Q] loses
    mass. *)
Hypothesis leak : forall S : {set 'I_m},
  S != set0 ->
  (forall i j, i \in S -> j \notin S -> Q i j = 0) ->
  (forall i, i \in S -> \sum_j Q i j = 1) -> False.

Lemma maximum_principle (x : 'I_m -> rat) :
  (forall i, 0 <= x i - \sum_j Q i j * x j) -> forall i, 0 <= x i.
Proof.
move=> Hx i1; rewrite leNgt; apply/negP=> xneg.
have [i0 _ Hmin] := arg_minP x (isT : xpredT i1).
have mneg : x i0 < 0 by apply: le_lt_trans xneg; apply: Hmin.
pose S := [set i | x i == x i0].
have HminS j : j \in [set: 'I_m] -> x i0 <= x j by move=> _; apply: Hmin.
have Hout i j : j \notin [set: 'I_m] -> Q i j = 0 by rewrite inE.
have Hrow i : i \in S ->
    \sum_j Q i j = 1 /\ \sum_j Q i j * x j <= x i0 * \sum_j Q i j.
  rewrite inE => /eqP xi.
  have H1 : \sum_j Q i j * x j <= x i0 by have := Hx i; rewrite xi; lra.
  have H2 : x i0 * \sum_j Q i j <= \sum_j Q i j * x j.
    rewrite mulr_sumr ler_sum // => j _.
    by rewrite mulrC ler_wpM2l // Hmin.
  have H3 : x i0 <= x i0 * \sum_j Q i j.
    by have := Q_le1 i; move: mneg; set s := \sum_j _; nra.
  split; last by lra.
  have : x i0 * \sum_j Q i j = x i0 by lra.
  by move: mneg; set s := \sum_j _; nra.
apply: (@leak S).
- by apply/set0Pn; exists i0; rewrite inE.
- move=> i j iS jS; apply/eqP/negP=> /negP Qnz.
  have [_ Hle] := Hrow i iS.
  by move: jS; rewrite inE (weighted_min HminS (Hout i) Hle Qnz) eqxx.
by move=> i /Hrow[].
Qed.

Lemma fundamental_kernel (v : 'cV[rat]_m) : (1%:M - Q) *m v = 0 -> v = 0.
Proof.
move=> Hv.
have Hx (w : 'cV[rat]_m) : (1%:M - Q) *m w = 0 -> forall i, 0 <= w i ord0.
  move=> Hw; apply: (@maximum_principle (fun i => w i ord0)) => i.
  by rewrite -inverse_entry Hw mxE.
have Hnv : (1%:M - Q) *m (- v) = 0 by rewrite mulmxN Hv oppr0.
apply/matrixP=> i j; rewrite ord1 [RHS]mxE; apply/eqP; rewrite eq_le Hx // andbT.
by have := Hx _ Hnv i; rewrite mxE oppr_ge0.
Qed.

Lemma fundamental_unit : 1%:M - Q \in unitmx.
Proof.
rewrite -unitmx_tr -row_free_unit -kermx_eq0; apply/rowV0P=> u /sub_kermxP Hu.
apply: trmx_inj; rewrite trmx0; apply: fundamental_kernel.
by rewrite -[1%:M - Q]trmxK -trmx_mul Hu trmx0.
Qed.

Lemma fundamental_product_ge0 (N : 'M[rat]_m) (a : nat)
    (Rm : 'M[rat]_(m, a)) :
  (1%:M - Q) *m N = 1%:M ->
  (forall i c, 0 <= Rm i c) -> forall i c, 0 <= (N *m Rm) i c.
Proof.
move=> N_inverse R_ge0 i c.
apply: (@maximum_principle (fun i => (N *m Rm) i c)) => k.
by rewrite -inverse_entry mulmxA N_inverse mul1mx.
Qed.

End FundamentalMatrix.

(** ** AbsorptionSolver: absorption probabilities of a stochastic matrix *)

Section AbsorbingChain.

Variable n : nat.
Variable set_to_list : seq 'I_n -> seq 'I_n.
Variables (P : 'M[rat]_n) (abs_states : seq 'I_n).

Hypothesis set_to_list_perm : forall s, perm_eq (set_to_list s) s.
Hypothesis P_ge0 : forall i j, 0 <= P i j.
Hypothesis P_stochastic : forall i, \sum_j P i j = 1.

Let trans := trans_states set_to_list abs_states.
Let Q := submatrix P trans trans.
Let Rm := submatrix P trans abs_states.

Lemma sum_submatrix_row (rows cols : seq 'I_n) (i : 'I_(size rows)) :
  \sum_j submatrix P rows cols i j =
  \sum_(j <- cols) P (tnth (in_tuple rows) i) j.
Proof.
under eq_bigr do rewrite mxE.
by rewrite [RHS]big_tnth.
Qed.

Lemma mem_trans_states (i : 'I_n) : (i \in trans) = (i \notin abs_states).
Proof.
by rewrite /trans /trans_states (perm_mem (set_to_list_perm _)) mem_filter
           mem_enum andbT.
Qed.

Lemma trans_states_uniq : uniq trans.
Proof.
by rewrite /trans /trans_states (perm_uniq (set_to_list_perm _)) filter_uniq
           // enum_uniq.
Qed.

Lemma trans_tnth (k : 'I_(size trans)) :
  tnth (in_tuple trans) k \notin abs_states.
Proof. by rewrite -mem_trans_states mem_tnth. Qed.

Lemma sum_trans_states (F : 'I_n -> rat) :
  \sum_(j <- trans) F j = \sum_(j | j \notin abs_states) F j.
Proof.
rewrite /trans /trans_states (perm_big _ (set_to_list_perm _)) /=.
by rewrite big_filter big_enum_cond.
Qed.

Lemma Q_row_sum (k : 'I_(size trans)) :
  \sum_j Q k j = 1 - \sum_(j | j \in abs_states) P (tnth (in_tuple trans) k) j.
Proof.
rewrite sum_submatrix_row sum_trans_states.
rewrite -(P_stochastic (tnth (in_tuple trans) k)).
rewrite [X in _ = X - _](bigID (fun j => j \in abs_states)) /=.
by rewrite addrC addKr.
Qed.

Lemma Q_block_ge0 (i j : 'I_(size trans)) : 0 <= Q i j.
Proof. by rewrite mxE. Qed.

Lemma R_block_ge0 (i : 'I_(size trans)) (c : 'I_(size abs_states)) :
  0 <= Rm i c.
Proof. by rewrite mxE. Qed.

Lemma Q_block_le1 (i : 'I_(size trans)) : \sum_j Q i j <= 1.
Proof.
rewrite Q_row_sum; have : 0 <= \sum_(j | j \in abs_states)
    P (tnth (in_tuple trans) i) j by apply: sumr_ge0.
by lra.
Qed.

(** A transient state whose row of [Q] sums to [1] has no edge to an
    absorbing state. *)
Lemma no_exit (k : 'I_(size trans)) (b : 'I_n) :
  \sum_j Q k j = 1 -> b \in abs_states -> P (tnth (in_tuple trans) k) b = 0.
Proof.
rewrite Q_row_sum => H1 b_abs.
have H0 : \sum_(j | j \in abs_states) P (tnth (in_tuple trans) k) j = 0.
  by move: H1; lra.
by have /(_ b b_abs) := psumr_eq0P (fun j _ => P_ge0 _ j) H0.
Qed.

Lemma trans_index (b : 'I_n) :
  b \notin abs_states ->
  exists k : 'I_(size trans), tnth (in_tuple trans) k = b.
Proof.
rewrite -mem_trans_states => b_tr.
have Hlt : (index b trans < size trans)%N by rewrite index_mem.
by exists (Ordinal Hlt); rewrite (tnth_nth b) /= nth_index.
Qed.

(** Where a transient state cannot reach an absorbing state, [I - Q] is
    singular. *)
Lemma chain_singular (E : rel 'I_n) (i : 'I_n) :
  (forall a b, a \notin abs_states -> 0 < P a b -> E a b) ->
  i \notin abs_states -> (forall s, s \in abs_states -> ~~ connect E i s) ->
  1%:M - Q \notin unitmx.
Proof.
move=> E_ge i_tr Hno; apply/negP=> Hunit.
pose C : {set 'I_(size trans)} :=
  [set k | connect E i (tnth (in_tuple trans) k)].
have Hedge (k : 'I_(size trans)) (b : 'I_n) :
    k \in C -> P (tnth (in_tuple trans) k) b != 0 -> connect E i b.
  rewrite inE => Hk Pnz; apply: connect_trans Hk (connect1 _).
  by apply: E_ge; rewrite ?trans_tnth // lt_neqAle eq_sym Pnz P_ge0.
apply: (@no_closed_class _ Q Q_block_ge0 (invmx (1%:M - Q)) C).
- exact: mulmxV.
- have [k Ek] := trans_index i_tr.
  by apply/set0Pn; exists k; rewrite inE Ek.
- move=> k k' kC k'C; apply/eqP/negP=> /negP; rewrite mxE => Pnz.
  by move: k'C; rewrite inE (Hedge k).
move=> k kC; rewrite Q_row_sum big1 ?subr0 // => b b_abs.
apply/eqP/negP=> /negP Pnz.
by have := Hno b b_abs; rewrite (Hedge k).
Qed.

Hypothesis abs_uniq : uniq abs_states.

Lemma block_split (i : 'I_(size trans)) :
  \sum_j Q i j + \sum_c Rm i c = 1.
Proof.
rewrite Q_row_sum sum_submatrix_row (big_uniq _ abs_uniq) /=.
by rewrite subrK.
Qed.

(** Every transient state reaches an absorbing state along the edges
    [E], which the chain has. *)
Variable E : rel 'I_n.
Hypothesis E_pos : forall a b, a \notin abs_states -> E a b -> 0 < P a b.
Hypothesis reach : forall i, i \notin abs_states ->
  exists2 s, s \in abs_states & connect E i s.

Lemma chain_leaks (S : {set 'I_(size trans)}) :
  S != set0 ->
  (forall i j, i \in S -> j \notin S -> Q i j = 0) ->
  (forall i, i \in S -> \sum_j Q i j = 1) -> False.
Proof.
move=> /set0Pn[k kS] Hclosed Hstoch.
have [s s_abs /connectP[p Hp Hlast]] := reach (trans_tnth k).
elim: p k kS Hp Hlast => [|b p IH] k kS /=.
  by move=> _ Hs; have := trans_tnth k; rewrite -Hs s_abs.
case/andP=> Hab Hp Hlast.
have Ppos := E_pos (trans_tnth k) Hab.
case Hb: (b \in abs_states).
  by move: Ppos; rewrite (no_exit (Hstoch k kS) Hb) ltxx.
have [k' Ek'] := trans_index (negbT Hb).
have k'S : k' \in S.
  case Hk': (k' \in S) => //.
  have := Hclosed k k' kS (negbT Hk'); rewrite mxE Ek' => P0.
  by rewrite P0 ltxx in Ppos.
by apply: (IH k' k'S); rewrite Ek'.
Qed.

Lemma absorption_unit : 1%:M - Q \in unitmx.
Proof. exact: (fundamental_unit Q_block_ge0 Q_block_le1 chain_leaks). Qed.

Let N := invmx (1%:M - Q).

Lemma absorption_ge0 (i : 'I_(size trans)) (c : 'I_(size abs_states)) :
  0 <= (N *m Rm) i c.
Proof.
apply: (fundamental_product_ge0 Q_block_ge0 Q_block_le1 chain_leaks).
  exact: (mulmxV absorption_unit).
exact: R_block_ge0.
Qed.

Lemma absorption_row_sum (i : 'I_(size trans)) :
  \sum_c (N *m Rm) i c = 1.
Proof.
pose ones k : 'cV[rat]_k := const_mx 1.
have onesE k a b : ones k a b = 1 by rewrite mxE.
have HR : Rm *m ones _ = (1%:M - Q) *m ones _.
  apply/matrixP=> k j; rewrite mulmxBl mul1mx mxE [in RHS]mxE onesE [in RHS]mxE [in RHS]mxE.
  under eq_bigr do rewrite onesE mulr1.
  under [X in _ = _ - X]eq_bigr do rewrite onesE mulr1.
  by have := block_split k; lra.
have : (N *m Rm *m ones _) i ord0 = 1.
  by rewrite -mulmxA HR mulmxA mulVmx ?absorption_unit // mul1mx onesE.
by rewrite mxE; under eq_bigr do rewrite onesE mulr1.
Qed.

Lemma clamp_negative_id (i : 'I_(size trans)) (c : 'I_(size abs_states)) :
  clamp_negative (N *m Rm) i c = (N *m Rm) i c.
Proof. by rewrite /clamp_negative mxE ltNge absorption_ge0. Qed.

End AbsorbingChain.

(** ** AbsorptionSolver: the call *)

Section AbsorptionSolverProofs.

Variable n : nat.
Variable set_to_list : seq 'I_n -> seq 'I_n.
Variable inv_singular : forall m : nat, 'M[rat]_m -> outcome 'M[rat]_m.
Implicit Types (T : 'M[rat]_n) (abs_states : seq 'I_n).

Lemma caller_matrix_entry T abs_states (i j : 'I_n) :
  (_compute_absorption_probabilities set_to_list inv_singular
     T abs_states).1 i j =
    if i \in abs_states then (i == j)%:R else T i j.
Proof. by rewrite /= !mxE; case: (i \in abs_states); case: (i == j). Qed.

Lemma sum_delta (i : 'I_n) : \sum_j (i == j)%:R = 1 :> rat.
Proof.
rewrite (bigD1 i) //= eqxx big1 ?addr0 // => j /negbTE.
by rewrite eq_sym => ->.
Qed.

Lemma caller_matrix_row_sum T abs_states (i : 'I_n) :
  \sum_j (_compute_absorption_probabilities set_to_list inv_singular
            T abs_states).1 i j =
    if i \in abs_states then 1 else \sum_j T i j.
Proof.
under eq_bigr do rewrite caller_matrix_entry.
by case: ifP => _ //; exact: sum_delta.
Qed.

(** C9. The matrix the caller passed is changed by the call, whatever the
    call's outcome: afterwards its rows of absorbing states are unit
    self-loops and its other rows are as before (it is not normalised:
    line 491 rebinds the local name).  So the argument keeps its value
    only if every absorbing row was a unit self-loop already.  In
    [fate_prediction] the matrix so changed is the one read after the
    call. *)
Theorem absorption_mutates_argument T abs_states :
  let T' := (_compute_absorption_probabilities set_to_list inv_singular
               T abs_states).1 in
  [/\ forall i j, T' i j = if i \in abs_states then (i == j)%:R else T i j,
      T' = T <-> (forall i j, i \in abs_states -> T i j = (i == j)%:R)
    & fate_prediction_transition_matrix set_to_list inv_singular
        T abs_states =
        (T0 <- _normalize_transition_matrix T ;;
         Ret (_compute_absorption_probabilities set_to_list inv_singular
                T0 abs_states).1)].
Proof.
split; first exact: caller_matrix_entry.
- split=> [E i j Hi|H].
    by rewrite -[in LHS]E caller_matrix_entry Hi.
  apply/matrixP=> i j; rewrite caller_matrix_entry.
  by case: ifP => // /H ->.
by rewrite /fate_prediction_transition_matrix.
Qed.

(** The chain the solver works on: absorbing rows are unit self-loops,
    the other rows those of [T], normalised. *)
Lemma absorption_system T abs_states :
  (forall i j, 0 <= T i j) -> (forall i, 0 < \sum_j T i j) ->
  let trans := trans_states set_to_list abs_states in
  exists P : 'M[rat]_n,
    [/\ forall i j, P i j = if i \in abs_states then (i == j)%:R
                            else T i j / \sum_k T i k,
        forall i j, 0 <= P i j,
        forall i, \sum_j P i j = 1
      & (_compute_absorption_probabilities set_to_list inv_singular
           T abs_states).2 =
        (N <- linalg_inv inv_singular (1%:M - submatrix P trans trans) ;;
         Ret (clamp_negative (N *m submatrix P trans abs_states)))].
Proof.
move=> T_ge0 T_pos trans.
pose T2 := assign_diagonal_one (assign_rows_zero T abs_states) abs_states.
have T2E i j : T2 i j = if i \in abs_states then (i == j)%:R else T i j.
  exact: caller_matrix_entry.
have T2_ge0 i j : 0 <= T2 i j.
  by rewrite T2E; case: ifP => // _; exact: ler0n.
have T2_pos i : 0 < \sum_j T2 i j.
  by rewrite [X in _ < X](caller_matrix_row_sum T abs_states); case: ifP.
have [T3 E HT3] := normalize_entry T2.
exists T3; split.
- move=> i j; rewrite HT3 [X in _ / X](caller_matrix_row_sum T abs_states).
  by rewrite T2E; case: ifP => // _; rewrite divr1.
- by move=> i j; rewrite HT3 divr_ge0 // ltW.
- by move=> i; apply: (normalize_row_sum (HT3 i)); rewrite gt_eqF.
rewrite /_compute_absorption_probabilities [(_, _).2]/=.
by case: E => E; rewrite !{}E.
Qed.

(** Where every transient state reaches an absorbing state along edges
    of [T], the call returns probabilities. *)
Lemma absorption_returns (E : rel 'I_n) T abs_states :
  (forall s, perm_eq (set_to_list s) s) ->
  (forall i j, 0 <= T i j) -> (forall i, 0 < \sum_j T i j) ->
  uniq abs_states ->
  (forall a b, a \notin abs_states -> E a b -> 0 < T a b) ->
  (forall i, i \notin abs_states ->
     exists2 s, s \in abs_states & connect E i s) ->
  exists probs,
    [/\ (_compute_absorption_probabilities set_to_list inv_singular
           T abs_states).2 = Ret probs,
        forall i c, 0 <= probs i c
      & forall i, \sum_c probs i c = 1].
Proof.
move=> Hperm T_ge0 T_pos abs_uniq E_T Hreach.
have [P [HP P_ge0 P_sum ->]] := absorption_system abs_states T_ge0 T_pos.
have E_P a b : a \notin abs_states -> E a b -> 0 < P a b.
  by move=> Ha Hab; rewrite HP (negbTE Ha) divr_gt0 // E_T.
have Hunit := absorption_unit Hperm P_ge0 P_sum E_P Hreach.
rewrite /linalg_inv Hunit bind_Ret; eexists; split; first by [].
  move=> i c; rewrite (clamp_negative_id Hperm P_ge0 P_sum E_P Hreach).
  exact: (absorption_ge0 Hperm P_ge0 P_sum E_P Hreach).
move=> i.
under eq_bigr do rewrite (clamp_negative_id Hperm P_ge0 P_sum E_P Hreach).
exact: (absorption_row_sum Hperm P_ge0 P_sum abs_uniq E_P Hreach).
Qed.

(** Where a transient state reaches no absorbing state, the matrix
    handed to [inv] is singular. *)
Lemma absorption_singular T abs_states (i : 'I_n) :
  (forall s, perm_eq (set_to_list s) s) ->
  (forall i j, 0 <= T i j) -> (forall i, 0 < \sum_j T i j) ->
  i \notin abs_states ->
  (forall s, s \in abs_states -> ~~ connect (fun a b => 0 < T a b) i s) ->
  let trans := trans_states set_to_list abs_states in
  exists P : 'M[rat]_n,
    [/\ forall i j, P i j = if i \in abs_states then (i == j)%:R
                            else T i j / \sum_k T i k,
        1%:M - submatrix P trans trans \notin unitmx
      & (_compute_absorption_probabilities set_to_list inv_singular
           T abs_states).2 =
        (N <- inv_singular (1%:M - submatrix P trans trans) ;;
         Ret (clamp_negative (N *m submatrix P trans abs_states)))].
Proof.
move=> Hperm T_ge0 T_pos Hi Hno trans.
have [P [HP P_ge0 P_sum ->]] := absorption_system abs_states T_ge0 T_pos.
have E_ge a b : a \notin abs_states -> 0 < P a b -> 0 < T a b.
  by move=> Ha; rewrite HP (negbTE Ha) pmulr_lgt0 // invr_gt0.
have Hs := chain_singular Hperm P_ge0 P_sum E_ge Hi Hno.
exists P; split=> //.
by rewrite /linalg_inv (negbTE Hs).
Qed.

End AbsorptionSolverProofs.

(** ** Branch probabilities and entropy *)


Section DifferentiationEntropyProofs.

Variable entropy : seq rat -> rat.
Variable n : nat.
Variable set_to_list : seq 'I_n -> seq 'I_n.
Variable inv_singular : forall m : nat, 'M[rat]_m -> outcome 'M[rat]_m.
Implicit Types (T : 'M[rat]_n).




Lemma make_sinks_other T (abs_states : seq 'I_n) (i j : 'I_n) :
  j \notin abs_states ->
  (foldl (@make_sink n) T abs_states : 'M[rat]_n) i j = T i j.
Proof.
elim: abs_states T => [|s abs_states IH] T //=.
rewrite inE negb_or => /andP[js jabs]; rewrite IH // mxE.
by rewrite (negbTE js) andbF.
Qed.

Lemma make_sinks_entry T (abs_states : seq 'I_n) (i j : 'I_n) :
  let Ts : 'M[rat]_n := foldl (@make_sink n) T abs_states in
  Ts i j = T i j \/ Ts i j = 1 / 2%:Q.
Proof.
elim: abs_states T => [|s abs_states IH] T /=; first by left.
case: (IH (make_sink T s)) => ->; last by right.
by rewrite mxE; case: ifP => _; [right | left].
Qed.


End DifferentiationEntropyProofs.

Lemma toy_swap_stochastic : stochastic_rows 2 [:: [:: 0; 1]; [:: 1; 0]].
Proof. by vm_compute. Qed.

Lemma toy_fate_chain_stochastic : stochastic_rows 4
  [:: [:: 0; 1%:Q / 2%:Q; 1%:Q / 2%:Q; 0];
      [:: 1%:Q / 2%:Q; 0; 0; 1%:Q / 2%:Q];
      [:: 0; 1%:Q / 2%:Q; 0; 1%:Q / 2%:Q];
      [:: 1%:Q / 2%:Q; 1%:Q / 2%:Q; 0; 0]].
Proof. by vm_compute. Qed.



(** ** GraphBuilder *)

Lemma pick_mem (A : eqType) (c : A -> A -> bool) (x : A) (s : seq A) :
  foldl (fun best y => if c best y then y else best) x s \in x :: s.
Proof.
elim: s x => [|y s IH] x /=; first by rewrite mem_head.
case: ifP => _; first by rewrite inE IH orbT.
by have := IH x; rewrite !inE => /orP[->|->]; rewrite ?orbT.
Qed.

Section GraphBuilderProofs.

Variable n : nat.
Variable edist : 'I_n -> 'I_n -> rat.
Implicit Types (adj : adjacency n) (d : 'I_n -> option rat).

(** The undirected graph of the stored entries. *)
Let edge adj : rel 'I_n :=
  fun u v => (adj u v != None) || (adj v u != None).

Let U adj (start : 'I_n) : {set 'I_n} :=
  [set v | dijkstra adj start v == None].

Lemma omin_some (a b : option rat) :
  (omin a b != None) = (a != None) || (b != None).
Proof. by case: a; case: b. Qed.

Lemma foldr_omin_some (a : option rat) (l : seq (option rat)) :
  (foldr omin a l != None) = (a != None) || has (fun x => x != None) l.
Proof.
elim: l => [|x l IH] /=; first by rewrite orbF.
by rewrite omin_some IH orbCA.
Qed.

Lemma relax_some adj d (v : 'I_n) :
  (relax adj d v != None) =
  (d v != None) || [exists u, edge adj u v && (d u != None)].
Proof.
rewrite /relax foldr_omin_some has_map; congr (_ || _).
have step u : ((if undirected_weight adj u v is Some w
                then omap (+%R^~ w) (d u) else None) != None)
              = edge adj u v && (d u != None).
  by rewrite /edge -omin_some -/(undirected_weight adj u v);
     case: (undirected_weight _ _ _); case: (d u).
apply/hasP/existsP=> [[u _ /=]|[u Hu]]; first by rewrite step; exists u.
by exists u; rewrite ?mem_enum //= step.
Qed.

Section Reach.

Variables (adj : adjacency n) (start : 'I_n).

Let reach (k : nat) (v : 'I_n) : bool :=
  iter k (relax adj) (fun v => if v == start then Some 0 else None) v
    != None.

Lemma reach_sound (k : nat) (v : 'I_n) :
  reach k v -> connect (edge adj) start v.
Proof.
rewrite /reach; elim: k v => [|k IH] v /=.
  by case: (v =P start) => [-> _|//]; exact: connect0.
rewrite relax_some => /orP[/IH //|/existsP[u /andP[Huv /IH Hu]]].
exact: connect_trans Hu (connect1 Huv).
Qed.

Lemma reach_step (k : nat) (u v : 'I_n) :
  reach k u -> edge adj u v -> reach k.+1 v.
Proof.
rewrite /reach /= relax_some => Hu Huv.
by apply/orP; right; apply/existsP; exists u; rewrite Huv.
Qed.

Lemma reach_mono (k k' : nat) (v : 'I_n) :
  (k <= k')%N -> reach k v -> reach k' v.
Proof.
move=> /subnK <-; elim: (k' - k)%N => [|j IH] // Hk.
by rewrite addSn /reach /= relax_some -/(reach (j + k) v) IH.
Qed.

Lemma reach_path (p : seq 'I_n) (x : 'I_n) (k : nat) :
  reach k x -> path (edge adj) x p -> reach (k + size p) (last x p).
Proof.
elim: p x k => [|y p IH] x k /=; first by rewrite addn0.
move=> Hx /andP[Hxy Hp]; rewrite addnS -addSn.
by apply: IH Hp; exact: reach_step Hx Hxy.
Qed.

Lemma dijkstra_connect (v : 'I_n) :
  (dijkstra adj start v != None) = connect (edge adj) start v.
Proof.
apply/idP/idP; first exact: reach_sound.
case/connectP=> p Hp ->; case/shortenP: Hp => p' Hp' Up' _.
have H0 : reach 0 start by rewrite /reach /= eqxx.
have := reach_path H0 Hp'; rewrite add0n; apply: reach_mono.
have : (size (start :: p') <= size (enum 'I_n))%N.
  by apply: uniq_leq_size => // x _; rewrite mem_enum.
by rewrite size_enum_ord /= => /ltnW.
Qed.

End Reach.

Lemma edge_set_entry adj (u v : 'I_n) (w : rat) :
  subrel (edge adj) (edge (set_entry adj u v w)).
Proof.
by move=> a b /orP[H|H]; apply/orP; [left | right]; rewrite mxE;
   case: ifP.
Qed.

Lemma connect_set_entry adj (u v : 'I_n) (w : rat) :
  subrel (connect (edge adj)) (connect (edge (set_entry adj u v w))).
Proof.
by apply: connect_sub => a b /edge_set_entry-/(_ u v w) /connect1.
Qed.

Lemma unreachable_decreases adj (start u v : 'I_n) (w : rat) :
  u \notin U adj start -> v \in U adj start ->
  U (set_entry adj u v w) start \proper U adj start.
Proof.
rewrite /U !inE => Hu Hv.
have Hu' : connect (edge adj) start u by rewrite -dijkstra_connect.
rewrite properE; apply/andP; split.
  apply/subsetP=> x; rewrite !inE; apply: contraTT.
  rewrite !dijkstra_connect; exact: connect_set_entry.
apply/subsetPn; exists v; rewrite !inE ?Hv // dijkstra_connect.
have Hu2 : connect (edge (set_entry adj u v w)) start u.
  exact: connect_set_entry.
apply: connect_trans Hu2 (connect1 _).
by rewrite /edge mxE !eqxx.
Qed.

Lemma idxmax_mem (s : seq 'I_n) (f : 'I_n -> rat) :
  s != [::] -> exists2 x, idxmax s f = Ret x & x \in s.
Proof. by case: s => // x s _; eexists; [by [] | exact: pick_mem]. Qed.

Lemma idxmin_mem (s : seq 'I_n) (f : 'I_n -> rat) :
  s != [::] -> exists2 x, idxmin s f = Ret x & x \in s.
Proof.
case: s => // x s _; eexists; first by [].
exact: (pick_mem (fun best y => f y < f best)).
Qed.

Lemma connect_loop_ok (start : 'I_n) (fuel : nat) adj :
  (#|U adj start| <= fuel)%N ->
  exists adj',
    connect_loop edist fuel start adj = Some (Ret adj') /\
    forall v, dijkstra adj' start v != None.
Proof.
elim: fuel adj => [|fuel IH] adj Hcard.
  have H0 : U adj start = set0 by apply/eqP; rewrite -cards_eq0 -leqn0.
  have Hall v : dijkstra adj start v != None.
    by have := in_set0 v; rewrite -H0 /U inE => /negbT.
  exists adj; split=> //=.
  rewrite (_ : [seq i <- enum 'I_n | _] = [::]) //.
  by apply/eqP; rewrite -[_ == _]negbK -has_filter; apply/hasPn=> x _.
rewrite [connect_loop _ _ _ _]/=.
set dists := dijkstra adj start.
set reacheable := [seq i <- enum 'I_n | dists i != None].
set unreachable_nodes := [seq i <- enum 'I_n | dists i == None].
case: ifP => [Hsz|/negbT]; last first.
  rewrite -leqNgt leqn0 size_eq0 -[_ == _]negbK -has_filter => /hasPn H.
  by exists adj; split=> // v; apply: H; rewrite mem_enum.
have start_reach : start \in reacheable.
  by rewrite mem_filter mem_enum andbT dijkstra_connect connect0.
have [u -> Hu] : exists2 x, idxmax reacheable
    (fun i => odflt 0 (dists i)) = Ret x & x \in reacheable.
  by apply: idxmax_mem; apply/eqP=> E; rewrite E in start_reach.
have [v -> Hv] : exists2 x, idxmin unreachable_nodes (edist u) = Ret x
                          & x \in unreachable_nodes.
  by apply: idxmin_mem; rewrite -size_eq0 -lt0n.
apply: IH; rewrite -ltnS; apply: leq_trans Hcard; apply: proper_card.
apply: unreachable_decreases; rewrite /U inE.
  by move: Hu; rewrite mem_filter => /andP[].
by move: Hv; rewrite mem_filter => /andP[].
Qed.

(** X1. With fuel [n] (the number of nodes) the connectivity repair
    returns, raising nothing, and in the adjacency it returns every node
    is at finite shortest-path distance from the start node. *)
Theorem connect_graph_reaches_every_node adj (start_cell : 'I_n) :
  exists adj',
    _connect_graph edist n adj start_cell = Some (Ret adj') /\
    forall v, dijkstra adj' start_cell v != None.
Proof.
apply: connect_loop_ok.
by rewrite -[X in (_ <= X)%N](card_ord n) max_card.
Qed.

Lemma connect_loop_keeps (start : 'I_n) (fuel : nat) adj :
  (#|U adj start| <= fuel)%N ->
  exists adj',
    [/\ connect_loop edist fuel start adj = Some (Ret adj'),
        forall a b, adj a b != None -> adj' a b = adj a b,
        forall a b, adj' a b != None ->
          (adj a b != None) || (dijkstra adj start b == None)
      & (forall v, dijkstra adj start v != None) -> adj' = adj].
Proof.
elim: fuel adj => [|fuel IH] adj Hcard.
  have H0 : U adj start = set0 by apply/eqP; rewrite -cards_eq0 -leqn0.
  have Hall v : dijkstra adj start v != None.
    by have := in_set0 v; rewrite -H0 /U inE => /negbT.
  exists adj; split=> //=; last by move=> a b ->.
  rewrite (_ : [seq i <- enum 'I_n | _] = [::]) //.
  by apply/eqP; rewrite -[_ == _]negbK -has_filter; apply/hasPn=> x _.
rewrite [connect_loop _ _ _ _]/=.
set dists := dijkstra adj start.
set reacheable := [seq i <- enum 'I_n | dists i != None].
set unreachable_nodes := [seq i <- enum 'I_n | dists i == None].
case: ifP => [Hsz|_]; last by exists adj; split=> // a b ->.
have start_reach : start \in reacheable.
  by rewrite mem_filter mem_enum andbT dijkstra_connect connect0.
have [u -> Hu] : exists2 x, idxmax reacheable
    (fun i => odflt 0 (dists i)) = Ret x & x \in reacheable.
  by apply: idxmax_mem; apply/eqP=> E; rewrite E in start_reach.
have [v -> Hv] : exists2 x, idxmin unreachable_nodes (edist u) = Ret x
                          & x \in unreachable_nodes.
  by apply: idxmin_mem; rewrite -size_eq0 -lt0n.
have Hu' : dists u != None by move: Hu; rewrite mem_filter => /andP[].
have Hv' : dists v == None by move: Hv; rewrite mem_filter => /andP[].
set adj1 := set_entry adj u v (edist u v).
have Hnew a b : adj a b != None -> adj1 a b = adj a b.
  move=> Hab; rewrite mxE; case: ifP => // /andP[/eqP Ea /eqP Eb].
  have Hnc : ~~ connect (edge adj) start v.
    by rewrite -dijkstra_connect negbK.
  have Hcu : connect (edge adj) start u by rewrite -dijkstra_connect.
  case/negP: Hnc; apply: connect_trans Hcu (connect1 _).
  by rewrite /edge -Ea -Eb Hab.
have [|adj' [-> Hkeep Hfrom Hsame]] := IH adj1.
  rewrite -ltnS; apply: leq_trans Hcard; apply: proper_card.
  by apply: unreachable_decreases; rewrite /U inE.
exists adj'; split=> //.
- by move=> a b Hab; rewrite Hkeep Hnew.
- move=> a b /Hfrom/orP[|Hb].
    rewrite mxE; case: ifP => [/andP[_ /eqP ->] _|_ ->] //.
    by rewrite -/dists Hv' orbT.
  apply/orP; right; apply: contraTT Hb.
  by rewrite !dijkstra_connect; exact: connect_set_entry.
by move=> Hall; move: Hv'; rewrite (negbTE (Hall v)).
Qed.

(** X2. The repair only adds entries: every entry stored in the input
    adjacency is found unchanged in the result, every entry of the result
    that the input did not store points to a node that was unreachable in
    the input, and an adjacency in which every node is reachable already
    is returned as it is. *)
Theorem connect_graph_only_adds_edges adj (start_cell : 'I_n) :
  exists adj',
    [/\ _connect_graph edist n adj start_cell = Some (Ret adj'),
        forall a b, adj a b != None -> adj' a b = adj a b,
        forall a b, adj' a b != None ->
          (adj a b != None) || (dijkstra adj start_cell b == None)
      & (forall v, dijkstra adj start_cell v != None) -> adj' = adj].
Proof.
apply: connect_loop_keeps.
by rewrite -[X in (_ <= X)%N](card_ord n) max_card.
Qed.

Lemma connect_loop_more_fuel (start : 'I_n) (fuel : nat) adj r :
  connect_loop edist fuel start adj = Some r ->
  connect_loop edist fuel.+1 start adj = Some r.
Proof.
elim: fuel adj => [|fuel IH] adj.
  by rewrite /=; case: ifP.
rewrite [connect_loop _ fuel.+2 _ _]/= [connect_loop _ fuel.+1 _ _]/=.
case: ifP => // _.
case: (idxmax _ _) => [u|e] //.
case: (idxmin _ _) => [v|e] //.
exact: IH.
Qed.

(** C4. The connectivity repair terminates, in at most as many rounds as
    there are nodes: with every fuel from [n] on the loop returns one and
    the same adjacency, raising nothing; and in this adjacency every node
    is at finite shortest-path distance from the start node. *)
Theorem connectivity_repair_terminates adj (start_cell : 'I_n) :
  exists adj',
    (forall fuel, (n <= fuel)%N ->
       _connect_graph edist fuel adj start_cell = Some (Ret adj')) /\
    forall v, dijkstra adj' start_cell v != None.
Proof.
have Hcard : (#|U adj start_cell| <= n)%N.
  by rewrite -[X in (_ <= X)%N](card_ord n) max_card.
have [adj' [E Hall]] := connect_loop_ok Hcard.
exists adj'; split=> // fuel /subnKC <-.
elim: (fuel - n)%N => [|k IH]; first by rewrite addn0.
by rewrite addnS; exact: connect_loop_more_fuel.
Qed.

End GraphBuilderProofs.

(** * Further properties of the code *)

(** ** WaypointSampler: when the call fails *)

(** X3. [_max_min_sampling] returns exactly when the data matrix has a
    row and a column and [num_waypoints] is at least the number of
    columns.  Otherwise it raises: [ZeroDivisionError] without columns,
    else [ValueError] without rows, else [IndexError]. *)
Theorem max_min_sampling_outcome (data : DataFrame) (num_waypoints : nat)
    (rnd : nat -> nat) :
  let N := size (df_index data) in
  let ncols := size (df_columns data) in
  let valid := [&& (0 < N)%N, (0 < ncols)%N & (ncols <= num_waypoints)%N] in
  match _max_min_sampling data num_waypoints rnd with
  | Ret waypoints => valid : Prop
  | Raise e =>
      ~~ valid /\
      e = if ncols == 0%N then ZeroDivisionError
          else if N == 0%N then ValueError else IndexError
  end.
Proof.
rewrite /_max_min_sampling.
case Hc: (size (df_columns data)) => [|c'] /=; first by rewrite andbF.
case HN: (size (df_index data)) => [|N'] /=.
  by case: (df_columns data) Hc.
case: (leqP c'.+1 num_waypoints) => Hle.
  have Kpos : (0 < num_waypoints %/ c'.+1)%N by rewrite divn_gt0.
  have [//|w [E _ _]] := @sample_columns_ok N'.+1 _ rnd (df_columns data)
                          0 [::] (ltn0Sn N') Kpos.
  by move: E; rewrite Hc => ->.
rewrite (divn_small Hle).
by case: (df_columns data) Hc.
Qed.

(** ** WaypointSampler: every pick is farthest from the picks before it *)

Lemma maxs_ge (s : seq rat) (x : rat) : x \in s -> x <= maxs s.
Proof.
case: s => // x0 s; rewrite /maxs /=.
elim: s => [|a s IH] /=; first by rewrite mem_seq1 => /eqP ->.
rewrite le_max !inE => /or3P[/eqP E|/eqP ->|H]; rewrite ?lexx //.
  by rewrite IH ?orbT // E mem_head.
by rewrite IH ?orbT // inE H orbT.
Qed.

Section MaxMinSpread.

Variables (N : nat) (col : seq rat).

Let vec := [seq nth 0 col i | i <- iota 0 N].

Let spread_inv (r0 k : nat) (picks : seq nat) (dists : seq (seq rat)) :
    Prop :=
  [/\ size picks = k, all (fun i => i < N)%N picks,
      nth 0%N picks 0 = r0,
      forall j, (j < k)%N ->
        nth [::] dists j = abs_diff vec (nth 0 vec (nth 0%N picks j))
    & forall kk i, (0 < kk < k)%N -> (i < N)%N ->
        nearest_picked col picks kk i <=
        nearest_picked col picks kk (nth 0%N picks kk)].

Lemma nth_vec (i : nat) : (i < N)%N -> nth 0 vec i = nth 0 col i.
Proof. by move=> Hi; rewrite (nth_map 0%N) ?size_iota // nth_iota. Qed.

Lemma nearest_picked_rcons (picks : seq nat) (x k i : nat) :
  (k <= size picks)%N ->
  nearest_picked col (rcons picks x) k i = nearest_picked col picks k i.
Proof.
move=> Hk; rewrite /nearest_picked; congr mins.
apply/eq_in_map=> j; rewrite mem_iota add0n /= => Hj.
by rewrite nth_rcons (leq_trans Hj Hk).
Qed.

Lemma min_axis1_nearest (picks : seq nat) (dists : seq (seq rat))
    (k i : nat) :
  (k <= size dists)%N -> (i < N)%N -> all (fun i => i < N)%N picks ->
  (k <= size picks)%N ->
  (forall j, (j < k)%N ->
     nth [::] dists j = abs_diff vec (nth 0 vec (nth 0%N picks j))) ->
  nth 0 (min_axis1 N k dists) i = nearest_picked col picks k i.
Proof.
move=> Hk Hi Hall Hkp Hd.
rewrite /min_axis1 (nth_map 0%N) ?size_iota // nth_iota // add0n.
rewrite /nearest_picked; congr mins.
apply: (@eq_from_nth _ 0); first by rewrite !size_map size_take_min size_iota; apply/minn_idPl.
move=> j; rewrite size_map size_take_min (minn_idPl Hk) => Hj.
rewrite (nth_map [::]) ?size_take_min ?(minn_idPl Hk) // nth_take // Hd //.
rewrite (nth_map 0%N) ?size_iota // nth_iota // add0n.
rewrite /abs_diff (nth_map 0) ?size_map ?size_iota // nth_vec //.
rewrite nth_vec //; apply: (allP Hall); apply: mem_nth.
exact: leq_trans Hj Hkp.
Qed.

Lemma maxmin_loop_spread (r0 m k0 : nat) (picks : seq nat)
    (dists : seq (seq rat)) :
  (0 < N)%N -> (0 < k0)%N -> (k0 + m <= size dists)%N ->
  spread_inv r0 k0 picks dists ->
  exists st,
    for_each (iota k0 m) (picks, dists) (maxmin_step N vec) = Ret st /\
    spread_inv r0 (k0 + m) st.1 st.2.
Proof.
move=> Npos.
elim: m k0 picks dists => [|m IH] k0 picks dists k0pos Hk Hinv /=.
  by exists (picks, dists); rewrite addn0.
have [Hsz Hall H0 Hd Hmax] := Hinv.
have Hk0 : (k0 < size dists)%N.
  by apply: leq_trans Hk; rewrite addnS ltnS leq_addr.
rewrite /maxmin_step /set_column /= Hk0 /=.
set min_dists := min_axis1 N k0 dists.
set new_wp := index _ _; set dists' := set_nth _ _ _ _.
have sz_min : size min_dists = N by rewrite size_map size_iota.
have mx_in : maxs min_dists \in min_dists.
  by apply: maxs_mem; rewrite -size_eq0 sz_min -lt0n.
have Hnew : (new_wp < N)%N by rewrite -sz_min index_mem.
have Hmd i : (i < N)%N ->
    nth 0 min_dists i = nearest_picked col picks k0 i.
  move=> Hi; apply: min_axis1_nearest => //; first exact: ltnW.
  by rewrite Hsz.
have Hsz' : size dists' = size dists.
  by rewrite /dists' size_set_nth; apply/maxn_idPr.
have [|||st [-> Hst]] := IH k0.+1 (rcons picks new_wp) dists'.
- by [].
- by rewrite Hsz' addSn -addnS.
- split.
  + by rewrite size_rcons Hsz.
  + by rewrite all_rcons Hnew.
  + by rewrite nth_rcons Hsz k0pos.
  + move=> j; rewrite ltnS leq_eqVlt => /orP[/eqP ->|Hj].
      by rewrite /dists' nth_set_nth /= eqxx nth_rcons Hsz ltnn eqxx.
    rewrite /dists' nth_set_nth /= (ltn_eqF Hj) nth_rcons Hsz Hj.
    exact: Hd.
  move=> kk i /andP[kkpos]; rewrite ltnS leq_eqVlt => /orP[/eqP ->|Hkk] Hi.
    rewrite !nearest_picked_rcons ?Hsz // nth_rcons Hsz ltnn eqxx.
    rewrite -!Hmd // /new_wp nth_index //; apply: maxs_ge.
    by apply: mem_nth; rewrite sz_min.
  rewrite !nearest_picked_rcons ?Hsz 1?ltnW // nth_rcons Hsz Hkk.
  by apply: Hmax => //; rewrite kkpos.
by exists st; split=> //; rewrite addnS -addSn.
Qed.

(** X4. On a column with at least one row, and for at least one
    iteration, the rows picked along the column start with the random
    draw, and every later pick is a row whose distance to the nearest of
    the picks before it is the largest among all rows. *)
Theorem sample_column_max_min (K draw : nat) :
  (0 < N)%N -> (0 < K)%N ->
  exists picks,
    [/\ sample_column N K col draw = Ret picks,
        size picks = K,
        nth 0%N picks 0 = (draw %% N)%N
      & forall k i, (0 < k < K)%N -> (i < N)%N ->
          nearest_picked col picks k i <=
          nearest_picked col picks k (nth 0%N picks k)].
Proof.
move=> Npos Kpos; rewrite /sample_column.
have -> : random_sample1 N draw = Ret [:: (draw %% N)%N] by case: N Npos.
rewrite bind_Ret /set_column size_nseq Kpos bind_Ret -/vec.
set dists := set_nth _ _ _ _.
have [| | |st [-> [Hsz _ H0 _ Hmax]]] :=
  @maxmin_loop_spread (draw %% N)%N (K - 1) 1 [:: (draw %% N)%N] dists Npos.
- by [].
- rewrite /dists size_set_nth size_nseq add1n subn1 prednK //.
  by rewrite leq_max leqnn orbT.
- split=> //; first by rewrite /= ltn_mod Npos.
    by case=> // _; rewrite /dists nth_set_nth.
  by move=> kk i; rewrite ltnS; case: kk.
have E : (1 + (K - 1) = K)%N by rewrite add1n subn1 prednK.
rewrite E in Hsz Hmax.
by exists st.1; rewrite bind_Ret; split.
Qed.

End MaxMinSpread.

(** ** The waypoint sequence: its members *)

Lemma pd_unique_id (s : Index) : uniq s -> pd_unique s = s.
Proof. by move=> Us; rewrite /pd_unique undup_id ?rev_uniq // revK. Qed.

(** X5. The waypoint sequence of [run_palantir] has no repeated label;
    its members are exactly the start cell, the sampled waypoints, the
    boundary cells and the terminal states given (if any); after the start
    cell the labels come in ascending order.  [identify_terminal_states]
    builds the sequence of a call without terminal states. *)
Theorem waypoints_distinct_and_complete
    (sampled dm_boundaries : Index) (terminal_states : option Index)
    (start_cell : label) :
  let w := run_palantir_waypoints sampled dm_boundaries terminal_states
             start_cell in
  [/\ uniq w,
      forall x, (x \in w) =
        [|| x == start_cell, x \in sampled, x \in dm_boundaries
          | x \in odflt [::] terminal_states],
      sorted ltn (behead w)
    & identify_terminal_states_waypoints sampled dm_boundaries start_cell =
      run_palantir_waypoints sampled dm_boundaries None start_cell].
Proof.
rewrite /run_palantir_waypoints /index_append /=.
set u := (if terminal_states is Some ts then _ else _).
have Hu x : (x \in u) =
    [|| x \in sampled, x \in dm_boundaries
      | x \in odflt [::] terminal_states].
  rewrite /u {u}; case: terminal_states => [ts|] /=.
    by rewrite !mem_index_union orbA.
  by rewrite mem_index_union orbF.
have Ud := index_difference_uniq u [:: start_cell].
rewrite (pd_unique_id Ud); split=> //.
- by rewrite Ud andbT mem_index_difference inE eqxx andbF.
- move=> x; rewrite inE mem_index_difference Hu inE.
  by case: (x == start_cell); rewrite ?andbT ?andbF.
- by rewrite ltn_sorted_uniq_leq Ud /index_difference sort_sorted.
Qed.

(** ** Row normalisation: normalising twice *)

(** X6. On a matrix without negative entries, normalising the rows of a
    normalised matrix changes nothing: [_normalize_transition_matrix] is
    idempotent. *)
Theorem normalize_idempotent (m n : nat) (M : 'M[rat]_(m, n)) :
  (forall i j, 0 <= M i j) ->
  exists2 T, _normalize_transition_matrix M = Ret T
           & _normalize_transition_matrix T = Ret T.
Proof.
move=> M_ge0; have [T E HT] := normalize_entry M.
exists T => //; have [T' -> HT'] := normalize_entry T.
congr Ret; apply/matrixP=> i j; rewrite HT'.
case: (eqVneq (\sum_k M i k) 0) => [M0|Mnz].
  by rewrite HT M0 invr0 mulr0 mul0r.
by rewrite (normalize_row_sum (HT i) Mnz) divr1.
Qed.

(** ** AbsorptionSolver: what the call returns *)

Section AbsorptionSolverOutcome.

Variable n : nat.
Variable set_to_list : seq 'I_n -> seq 'I_n.
Variable inv_singular : forall m : nat, 'M[rat]_m -> outcome 'M[rat]_m.
Implicit Types (T : 'M[rat]_n) (abs_states : seq 'I_n).

(** X9. For a matrix without negative entries whose rows have positive
    totals, and distinct absorbing states: if every other state reaches
    an absorbing state along positive entries of [T], then [I - Q] has an
    inverse and [_compute_absorption_probabilities] returns a matrix of
    probabilities: no negative entry, and every row (one per transient
    state) sums to [1]. *)
Theorem absorption_probabilities_stochastic T abs_states :
  (forall s, perm_eq (set_to_list s) s) ->
  (forall i j, 0 <= T i j) -> (forall i, 0 < \sum_j T i j) ->
  uniq abs_states ->
  (forall i, i \notin abs_states ->
     exists2 s, s \in abs_states & connect (fun a b => 0 < T a b) i s) ->
  exists probs,
    [/\ (_compute_absorption_probabilities set_to_list inv_singular
           T abs_states).2 = Ret probs,
        forall i c, 0 <= probs i c
      & forall i, \sum_c probs i c = 1].
Proof.
move=> Hperm T_ge0 T_pos abs_uniq Hreach.
by apply: (absorption_returns inv_singular Hperm T_ge0 T_pos abs_uniq _ Hreach).
Qed.

(** X10. Conversely, if some transient state reaches no absorbing state
    along positive entries of [T] (as when there is no absorbing state at
    all), the matrix [I - Q] handed to [inv] is singular ([Q] being taken
    from the chain [P] whose absorbing rows are unit self-loops and whose
    other rows are those of [T], normalised): the call raises
    [LinAlgError] if [inv] does, and its value is otherwise made from
    whatever [inv] returns for this singular matrix. *)
Theorem absorption_singular_without_exit T abs_states (i : 'I_n) :
  (forall s, perm_eq (set_to_list s) s) ->
  (forall i j, 0 <= T i j) -> (forall i, 0 < \sum_j T i j) ->
  i \notin abs_states ->
  (forall s, s \in abs_states -> ~~ connect (fun a b => 0 < T a b) i s) ->
  let trans := trans_states set_to_list abs_states in
  exists P : 'M[rat]_n,
    [/\ forall i j, P i j = if i \in abs_states then (i == j)%:R
                            else T i j / \sum_k T i k,
        1%:M - submatrix P trans trans \notin unitmx
      & (_compute_absorption_probabilities set_to_list inv_singular
           T abs_states).2 =
        (N <- inv_singular (1%:M - submatrix P trans trans) ;;
         Ret (clamp_negative (N *m submatrix P trans abs_states)))].
Proof. exact: absorption_singular. Qed.

End AbsorptionSolverOutcome.

(** ** Sink creation in [_differentiation_entropy] (lines 533-537) *)

Section SinkCreation.

Variable n : nat.
Implicit Types (T : 'M[rat]_n) (abs_states : seq 'I_n).

(** X11. The loop [for s in abs_states: T[nb, s] = 0.5] writes only into
    the columns of the terminal states and only the value [1/2]; and when
    the terminal states are distinct, every node [i] that a terminal state
    [s] steps to ([T[s, i] > 0] on entry) ends with [T[i, s] = 1/2]. *)
Theorem sinks_written_in_terminal_columns T abs_states :
  uniq abs_states ->
  let Ts : 'M[rat]_n := foldl (@make_sink n) T abs_states in
  [/\ forall i j, j \notin abs_states -> Ts i j = T i j,
      forall i j, Ts i j = T i j \/ Ts i j = 1 / 2%:Q
    & forall i s, s \in abs_states -> 0 < T s i -> Ts i s = 1 / 2%:Q].
Proof.
move=> Huniq Ts; split; rewrite {}/Ts.
- by move=> i j; exact: make_sinks_other.
- by move=> i j; exact: make_sinks_entry.
move=> i s; elim: abs_states T Huniq => [|s0 abs_states IH] T //=.
case/andP=> s0_notin Huniq; rewrite inE; case: (s =P s0) => [->|_] /=.
  move=> _ Hpos; rewrite make_sinks_other // mxE eqxx andbT.
  by rewrite mem_filter Hpos mem_enum.
move=> s_in Hpos; apply: IH => //.
by rewrite mxE; case: ifP.
Qed.

End SinkCreation.

(** ** Examples for the further properties *)

Lemma sample_column_max_min_witness :
  exists picks,
    [/\ sample_column 4 3 [:: 0; 1%:Q / 2%:Q; 1; 1%:Q / 4%:Q] 1 = Ret picks,
        size picks = 3%N, nth 0%N picks 0 = (1 %% 4)%N
      & forall k i, (0 < k < 3)%N -> (i < 4)%N ->
          nearest_picked [:: 0; 1%:Q / 2%:Q; 1; 1%:Q / 4%:Q] picks k i <=
          nearest_picked [:: 0; 1%:Q / 2%:Q; 1; 1%:Q / 4%:Q] picks k
            (nth 0%N picks k)].
Proof. exact: (@sample_column_max_min 4 _ 3 1 isT isT). Defined.

Lemma normalize_idempotent_witness :
  exists2 T, _normalize_transition_matrix zero_row_matrix = Ret T
           & _normalize_transition_matrix T = Ret T.
Proof.
apply: normalize_idempotent => i j; rewrite mxE.
by case: i => [[|[|i]]] // ?; case: j => [[|[|j]]].
Defined.

Lemma pruned_chain_no_new_edge_witness :
  exists T' : 'M[rat]_3,
    [/\ _construct_phenotypic_markov_chain (fun=> exact_cmp) toy_chain
          toy_trajectory = Ret T',
        forall i j, 0 <= T' i j,
        forall i j, toy_chain i j = 0 -> T' i j = 0
      & forall i j, toy_trajectory i <= toy_trajectory j ->
          toy_chain i j <= T' i j].
Proof.
apply: pruned_chain_no_new_edge.
  exact: (stochastic_rows_ge0 toy_chain_stochastic).
exact: (stochastic_rows_sum toy_chain_stochastic).
Defined.

Lemma pruned_chain_one_sided_rows_witness :
  exists T' : 'M[rat]_4,
    [/\ _construct_phenotypic_markov_chain (fun=> unequal_cmp) toy_last_chain
          toy_last_trajectory = Ret T',
        forall i,
          (forall j, toy_last_trajectory j < toy_last_trajectory i ->
             toy_last_chain i j = 0) ->
          forall j, T' i j = toy_last_chain i j
      & forall i,
          (forall j, toy_last_trajectory i <= toy_last_trajectory j ->
             toy_last_chain i j = 0) ->
          forall j, T' i j =
            if float_eq unequal_cmp 1 1 then toy_last_chain i j else 0].
Proof.
apply: pruned_chain_one_sided_rows.
- exact: (stochastic_rows_ge0 toy_last_chain_stochastic).
- exact: (stochastic_rows_sum toy_last_chain_stochastic).
- by move=> i; exact: unequal_cmp_sound.
Defined.

Lemma toy_swap_row_pos (i : 'I_2) : 0 < \sum_j toy_swap i j.
Proof. by rewrite (stochastic_rows_sum toy_swap_stochastic). Qed.

Lemma toy_fate_row_pos (i : 'I_4) : 0 < \sum_j toy_fate_chain i j.
Proof. by rewrite (stochastic_rows_sum toy_fate_chain_stochastic). Qed.

Lemma toy_fate_states_reach (i : 'I_4) :
  i \notin [:: Ordinal (isT : (2 < 4)%N); Ordinal (isT : (3 < 4)%N)] ->
  exists2 s,
    s \in [:: Ordinal (isT : (2 < 4)%N); Ordinal (isT : (3 < 4)%N)]
    & connect (fun a b => 0 < toy_fate_chain a b) i s.
Proof.
case: i => [[|[|[|[|i]]]] Hi] // _.
  exists (Ordinal (isT : (2 < 4)%N)); first by rewrite mem_head.
  by apply: connect1; rewrite mxE.
exists (Ordinal (isT : (3 < 4)%N)); first by rewrite inE mem_head orbT.
by apply: connect1; rewrite mxE.
Qed.

Lemma absorption_probabilities_stochastic_witness :
  exists probs,
    [/\ (_compute_absorption_probabilities id (fun m _ => Raise LinAlgError)
           toy_fate_chain
           [:: Ordinal (isT : (2 < 4)%N); Ordinal (isT : (3 < 4)%N)]).2
          = Ret probs,
        forall i c, 0 <= probs i c
      & forall i, \sum_c probs i c = 1].
Proof.
apply: absorption_probabilities_stochastic.
- by [].
- exact: (stochastic_rows_ge0 toy_fate_chain_stochastic).
- exact: toy_fate_row_pos.
- by [].
- exact: toy_fate_states_reach.
Defined.

Lemma absorption_singular_without_exit_witness :
  exists P : 'M[rat]_2,
    [/\ forall i j, P i j = if i \in (@nil 'I_2) then (i == j)%:R
                            else toy_swap i j / \sum_k toy_swap i k,
        1%:M - submatrix P (trans_states id [::]) (trans_states id [::])
          \notin unitmx
      & (_compute_absorption_probabilities id (fun m _ => Raise LinAlgError)
           toy_swap [::]).2 = Raise LinAlgError].
Proof.
have [P [HP Hs E]] :=
  @absorption_singular_without_exit 2 id (fun m _ => Raise LinAlgError)
    toy_swap [::] ord0 (fun s => perm_refl s)
    (stochastic_rows_ge0 toy_swap_stochastic) toy_swap_row_pos isT
    (fun s (H : s \in [::]) => False_ind _ (notF H)).
by exists P.
Defined.

Lemma sinks_written_in_terminal_columns_witness :
  let Ts : 'M[rat]_3 := foldl (@make_sink 3) toy_chain [:: ord_max] in
  [/\ forall i j, j \notin [:: ord_max] -> Ts i j = toy_chain i j,
      forall i j, Ts i j = toy_chain i j \/ Ts i j = 1 / 2%:Q
    & forall i s, s \in [:: ord_max] -> 0 < toy_chain s i ->
        Ts i s = 1 / 2%:Q].
Proof. exact: (@sinks_written_in_terminal_columns 3 toy_chain [:: ord_max] isT). Defined.

(** ** Projection to all cells *)

Section Projection.

Variables (data_index waypoints : Index) (W : seq (seq rat)).
Variable branch_probs : Frame.

Let ncols := size (frame_columns branch_probs).

Lemma mem_zip_snd (A B : eqType) (s : seq A) (t : seq B) (x : A) (y : B) :
  (x, y) \in zip s t -> y \in t.
Proof.
elim: s t => [|a s IH] [|b t] //=; rewrite !inE xpair_eqE.
by case/orP=> [/andP[_ ->] //|/IH ->]; rewrite orbT.
Qed.

Lemma frame_loc_rows_mem (labels : Index) B row :
  frame_loc_rows branch_probs labels = Some B -> row \in B ->
  row \in frame_values branch_probs.
Proof.
rewrite /frame_loc_rows; case: ifP => // _ [<-] /flattenP[rs].
case/mapP=> l _ -> /mapP[[l' r]]; rewrite mem_filter => /andP[_ Hin] ->.
exact: mem_zip_snd Hin.
Qed.

Lemma frame_loc_rows_size (labels : Index) :
  uniq (frame_index branch_probs) ->
  size (frame_values branch_probs) = size (frame_index branch_probs) ->
  {subset labels <= frame_index branch_probs} ->
  exists2 B, frame_loc_rows branch_probs labels = Some B
           & size B = size labels.
Proof.
move=> Huniq Hsz Hsub; rewrite /frame_loc_rows.
have -> : all (fun l => l \in frame_index branch_probs) labels.
  by apply/allP.
eexists; first by [].
rewrite size_flatten /shape -map_comp.
elim: labels Hsub => [|l labels IH] Hsub //=.
have Hsub' : {subset labels <= frame_index branch_probs}.
  by move=> x Hx; apply: Hsub; rewrite inE Hx orbT.
rewrite (IH Hsub') size_map size_filter.
have -> : count (fun lr : label * seq rat => lr.1 == l)
            (zip (frame_index branch_probs) (frame_values branch_probs)) =
          count (pred1 l) (frame_index branch_probs).
  rewrite -[in RHS](@unzip1_zip _ _ (frame_index branch_probs)
                      (frame_values branch_probs)) ?Hsz //.
  by rewrite /unzip1 count_map.
by rewrite count_uniq_mem // Hsub // mem_head.
Qed.

(** X12. The projection of lines 91-92 keeps probabilities: when, for
    every cell, the weights of the waypoints sum to [1] (line 276 divides
    [W] by its column sums) and every row of [branch_probs] has one entry
    per column and sums to [1], every row of the projected frame sums to
    [1]; the frame has one row per cell and the columns of [branch_probs].
    The projection returns when the row labels of [branch_probs] are
    distinct and contain the waypoints, and [W] has one row per
    waypoint. *)
Theorem projection_keeps_probabilities :
  (forall j, (j < size data_index)%N ->
     \sum_(r <- iota 0 (size W)) nth 0 (nth [::] W r) j = 1) ->
  (forall row, row \in frame_values branch_probs ->
     size row = ncols /\ \sum_(x <- row) x = 1) ->
  (forall res, project_to_cells data_index waypoints W branch_probs
                 = Some res ->
     [/\ frame_index res = data_index,
         frame_columns res = frame_columns branch_probs,
         size (frame_values res) = size data_index
       & all (fun row => (size row == ncols) && (\sum_(x <- row) x == 1))
             (frame_values res)]) /\
  (uniq (frame_index branch_probs) ->
   size (frame_values branch_probs) = size (frame_index branch_probs) ->
   {subset waypoints <= frame_index branch_probs} ->
   size W = size waypoints ->
   exists res, project_to_cells data_index waypoints W branch_probs
                 = Some res).
Proof.
move=> HW Hbp; split; last first.
  move=> Huniq Hsz Hsub HszW; rewrite /project_to_cells.
  have [B -> HB] := frame_loc_rows_size Huniq Hsz Hsub.
  by rewrite /dot_transpose HszW HB eqxx; eexists.
move=> res; rewrite /project_to_cells.
case EB: (frame_loc_rows _ _) => [B|] //.
rewrite /dot_transpose; case: eqP => // HszW [<-] /=.
split=> //; first by rewrite size_map size_iota.
apply/allP=> row /mapP[j]; rewrite mem_iota add0n => /andP[_ Hj] ->.
rewrite size_map size_iota eqxx /= big_map.
rewrite exchange_big /= -[X in _ == X](HW j Hj).
apply/eqP/eq_big_seq => r; rewrite mem_iota add0n => /andP[_ Hr].
rewrite -mulr_sumr.
have Hrow : nth [::] B r \in frame_values branch_probs.
  by apply: (frame_loc_rows_mem EB); rewrite mem_nth // -HszW.
have [Hsize Hsum] := Hbp _ Hrow.
suff -> : \sum_(c <- iota 0 ncols) nth 0 (nth [::] B r) c = 1 by rewrite mulr1.
rewrite -Hsum -Hsize.
by rewrite [RHS](big_nth 0) /index_iota subn0.
Qed.

End Projection.

Lemma toy_weights_columns (j : nat) :
  (j < size toy_cells)%N ->
  \sum_(r <- iota 0 (size toy_weights)) nth 0 (nth [::] toy_weights r) j = 1.
Proof. by case: j => [|[|[|j]]] //= _; rewrite !big_cons big_nil /=; lra. Qed.

Lemma toy_branch_probs_rows (row : seq rat) :
  row \in frame_values toy_branch_probs ->
  size row = size (frame_columns toy_branch_probs) /\ \sum_(x <- row) x = 1.
Proof.
by rewrite !inE orbb => /eqP ->; rewrite big_cons big_nil addr0.
Qed.

Lemma projection_keeps_probabilities_witness :
  exists res,
    [/\ project_to_cells toy_cells toy_waypoints toy_weights toy_branch_probs
          = Some res,
        frame_index res = toy_cells,
        size (frame_values res) = size toy_cells
      & all (fun row => (size row == 1%N) && (\sum_(x <- row) x == 1))
            (frame_values res)].
Proof.
have [H1 H2] := @projection_keeps_probabilities toy_cells toy_waypoints
                  toy_weights toy_branch_probs toy_weights_columns
                  toy_branch_probs_rows.
have Hsub : {subset toy_waypoints <= frame_index toy_branch_probs} by [].
have [res E] := H2 isT erefl Hsub erefl.
by exists res; have [? _ ? ?] := H1 _ E; split.
Defined.

(** ** One pass of the trajectory refinement *)

Section RefinePass.

Variables (data_index waypoints : Index) (D W : seq (seq rat)).
Variable traj : seq rat.

Hypothesis waypoints_uniq : uniq waypoints.

Let aligned (P : seq (seq rat)) (wp : label) : seq rat :=
  [seq (if nth 0 traj j < series_loc data_index traj wp
        then - nth 0 (frame_loc waypoints D wp) j
        else nth 0 (frame_loc waypoints P wp) j)
       + series_loc data_index traj wp
  | j <- iota 0 (size data_index)].

Lemma aligned_rows (ws : seq label) (P : seq (seq rat)) (r : nat) :
  uniq ws -> {subset ws <= waypoints} ->
  nth [::] (foldl (align_waypoint data_index waypoints D traj) P ws) r =
  if (r < size waypoints)%N && (nth 0%N waypoints r \in ws)
  then aligned P (nth 0%N waypoints r) else nth [::] P r.
Proof.
elim: ws P => [|w ws IH] P /=; first by rewrite andbF.
case/andP=> w_notin ws_uniq Hsub.
have w_in : w \in waypoints by apply: Hsub; rewrite mem_head.
have Hsub' : {subset ws <= waypoints}.
  by move=> x Hx; apply: Hsub; rewrite inE Hx orbT.
rewrite (IH _ ws_uniq Hsub').
case Hr: (r < size waypoints)%N => /=; last first.
  rewrite /align_waypoint nth_set_nth /=; case: eqP => // Er.
  by rewrite Er index_mem w_in in Hr.
rewrite inE; case Hin: (nth 0%N waypoints r \in ws).
  rewrite orbT /aligned /frame_loc /align_waypoint nth_set_nth /=.
  rewrite index_uniq //; case: eqP => // Er.
  by rewrite Er nth_index // (negbTE w_notin) in Hin.
rewrite orbF /align_waypoint nth_set_nth /=.
case: (r =P index w waypoints) => [->|Hne]; first by rewrite nth_index ?eqxx.
case: eqP => // Ew; case: Hne.
by rewrite -Ew index_uniq.
Qed.

(** X13. One pass of the refinement, entry by entry (the waypoint labels
    being distinct): the new trajectory value of cell [j] is the weighted
    sum over the waypoints of the distance of [j] seen from the waypoint;
    for the first waypoint (the start cell) this is [D[start, j]], for any
    other waypoint [wp] it is [traj[wp] + D[wp, j]], or [traj[wp] - D[wp, j]]
    when [j] lies before [wp] on the current trajectory. *)
Theorem refine_pass_entry (j : nat) :
  (j < size data_index)%N ->
  nth 0 (refine_pass data_index waypoints D W traj) j =
  \sum_(r <- iota 0 (size waypoints))
     (if r == 0%N then nth 0 (nth [::] D r) j
      else (if nth 0 traj j < series_loc data_index traj (nth 0%N waypoints r)
            then - nth 0 (nth [::] D r) j else nth 0 (nth [::] D r) j)
           + series_loc data_index traj (nth 0%N waypoints r))
     * nth 0 (nth [::] W r) j.
Proof.
move=> Hj; rewrite /refine_pass /weighted_sum.
rewrite (nth_map 0%N) ?size_iota // nth_iota // add0n.
apply: eq_big_seq => r; rewrite mem_iota add0n => /andP[_ Hr].
have Hsub : {subset behead waypoints <= waypoints}.
  by move=> x; exact: mem_behead.
have Hu : uniq (behead waypoints).
  by case: waypoints waypoints_uniq => //= w ws /andP[].
congr (_ * _); rewrite (aligned_rows _ _ Hu Hsub) Hr /=.
have -> : (nth 0%N waypoints r \in behead waypoints) = (r != 0%N).
  case: waypoints waypoints_uniq Hr => //= w ws /andP[w_notin _].
  case: r => [|r'] /=; first by rewrite (negbTE w_notin).
  by rewrite ltnS => Hr'; rewrite mem_nth.
case: (r =P 0%N) => [->|_] //=.
rewrite (nth_map 0%N) ?size_iota // nth_iota // add0n.
by rewrite /frame_loc index_uniq.
Qed.

End RefinePass.

Lemma refine_pass_entry_witness :
  nth 0 (refine_pass toy_cells toy_waypoints toy_weights toy_weights
           [:: 0; 1; 1%:Q / 2%:Q]) 2 =
  \sum_(r <- iota 0 (size (toy_waypoints : seq label)))
     (if r == 0%N then nth 0 (nth [::] toy_weights r) 2
      else (if nth 0 [:: 0; 1; 1%:Q / 2%:Q] 2
                 < series_loc toy_cells [:: 0; 1; 1%:Q / 2%:Q]
                     (nth 0%N toy_waypoints r)
            then - nth 0 (nth [::] toy_weights r) 2
            else nth 0 (nth [::] toy_weights r) 2)
           + series_loc toy_cells [:: 0; 1; 1%:Q / 2%:Q]
               (nth 0%N toy_waypoints r))
     * nth 0 (nth [::] toy_weights r) 2.
Proof.
exact: (@refine_pass_entry toy_cells toy_waypoints toy_weights toy_weights
          [:: 0; 1; 1%:Q / 2%:Q] isT 2 isT).
Defined.
